(** * ESPHome dashboard coordinator and firmware update entity

    A shallow embedding of
    [homeassistant/components/esphome/dashboard.py] and
    [homeassistant/components/esphome/update.py].

    Definitions come first: the data model (devices, snapshots, Python
    results), the synchronous code ([_async_update_data], [get_device], the
    entity properties), the refresh of the coordinator, [asyncio.Lock], and
    the event loop that runs calls of [ensure_data] as tasks. The lemmas
    follow: an invariant of the event loop, absence of deadlock, and the
    properties of [ensure_data], of the refresh and of [get_device]. *)

From stdpp Require Import gmap strings list fin_maps pretty.

(** * Data model *)

(** [ConfiguredDevice] is a dictionary of the dashboard API. The code reads
    its keys ["name"] and ["current_version"]; every other key is carried
    along untouched. *)
Record ConfiguredDevice := {
  dev_name : string;
  current_version : string;
  other_keys : list (string * string)
}.

(** [DataUpdateCoordinator[dict[str, ConfiguredDevice]]]: the value of
    [self.data] is [None] until a refresh has stored a dictionary. *)
Abbreviation snapshot := (gmap string ConfiguredDevice).

(** Python exceptions the modelled code can meet. [FetchError] stands for
    whatever [api.get_devices()] raises (transport error, timeout, bad
    response). [RuntimeError] is what [asyncio.Lock.release] raises on a
    lock that is not held. *)
Inductive exn := AssertionError | FetchError | RuntimeError.

(** The result of running a piece of Python: a value or a raised
    exception. *)
Inductive outcome (A : Type) :=
| Ret (a : A)
| Raise (e : exn).
Arguments Ret {A} a.
Arguments Raise {A} e.

(** [aioesphomeapi.DeviceInfo], the fields the two files read. [get_device]
    asserts that the name is not [None], so it is optional here. *)
Record DeviceInfo := {
  name : option string;
  mac_address : string;
  esphome_version : string
}.

(** [RuntimeEntryData], the fields the two files read. *)
Record RuntimeEntryData := {
  entry_id : string;
  device_info : option DeviceInfo
}.

(** A reference to an [asyncio.Lock] object in the store of locks. *)
Abbreviation lock_ref := nat (only parsing).

(** The attributes of an [ESPHomeDashboard] instance that the code reads or
    writes. [data] and [last_update_success] are inherited from
    [DataUpdateCoordinator]. *)
Record ESPHomeDashboard := {
  data : option snapshot;
  last_update_success : bool;
  _first_fetch_lock : option lock_ref
}.

(** Python truthiness of [self.data]: [None] and the empty dictionary are
    false, every other dictionary is true. *)
Definition truthy (d : option snapshot) : bool :=
  match d with
  | None => false
  | Some m => negb (size m =? 0)%nat
  end.

(** [ESPHomeUpdateEntity]: the entry data and the coordinator it was built
    with. *)
Record ESPHomeUpdateEntity := {
  _entry_data : RuntimeEntryData;
  coordinator : ESPHomeDashboard
}.

(** * The synchronous code *)

(** The dictionary comprehension
    [{dev["name"]: dev for dev in devices["configured"]}]: the devices are
    stored one after the other, a later one replacing an earlier one of the
    same name. *)
Definition index_by_name (devices : list ConfiguredDevice) : snapshot :=
  foldl (fun m dev => <[dev_name dev := dev]> m) ∅ devices.

(** [ESPHomeDashboard._async_update_data]. Its argument is the outcome of
    [await self.api.get_devices()], projected on ["configured"]; an
    exception raised there leaves the function as it is. *)
Definition _async_update_data (fetched : outcome (list ConfiguredDevice))
  : outcome snapshot :=
  match fetched with
  | Ret devices => Ret (index_by_name devices)
  | Raise e => Raise e
  end.

(** [ESPHomeDashboard.get_device]. *)
Definition get_device (self : ESPHomeDashboard) (entry_data : RuntimeEntryData)
  : outcome (option ConfiguredDevice) :=
  if negb (truthy (data self)) then Ret None
  else
    match device_info entry_data with
    | None => Raise AssertionError
    | Some info =>
        match name info with
        | None => Raise AssertionError
        | Some n =>
            match data self with
            | Some m => Ret (m !! n)
            | None => Ret None
            end
        end
    end.

(** [ESPHomeUpdateEntity.available]. [super_available] is the value of
    [super().available], which belongs to [CoordinatorEntity]; Python's
    [and] does not evaluate its right operand when the left one is false. *)
Definition available (super_available : bool) (self : ESPHomeUpdateEntity)
  : outcome bool :=
  if super_available then
    match get_device (coordinator self) (_entry_data self) with
    | Ret (Some _) => Ret true
    | Ret None => Ret false
    | Raise e => Raise e
    end
  else Ret false.

(** [ESPHomeUpdateEntity.latest_version]. *)
Definition latest_version (self : ESPHomeUpdateEntity) : outcome (option string) :=
  match get_device (coordinator self) (_entry_data self) with
  | Ret None => Ret None
  | Ret (Some device) => Ret (Some (current_version device))
  | Raise e => Raise e
  end.

(** [ESPHomeUpdateEntity.installed_version]. *)
Definition installed_version (self : ESPHomeUpdateEntity) : outcome (option string) :=
  match device_info (_entry_data self) with
  | None => Raise AssertionError
  | Some info => Ret (Some (esphome_version info))
  end.

(** * The refresh of the coordinator *)

(** Modelled from the spec: [DataUpdateCoordinator.async_request_refresh]
    (the spec's [refreshNow]) belongs to the coordinator base class, which is
    not part of the two files. Section 4.1: it invokes the external fetch; on
    success it replaces the stored snapshot by the one built from the
    returned devices; on failure the previous snapshot is retained and the
    failure is reported through an error signal, here the coordinator's
    [last_update_success] flag. Section 7: the failure is not raised to the
    caller. The argument [fetched] is the outcome of the fetch that the call
    awaits; the snapshot is built by [_async_update_data]. *)
Definition async_request_refresh (self : ESPHomeDashboard)
    (fetched : outcome (list ConfiguredDevice)) : ESPHomeDashboard * outcome unit :=
  match _async_update_data fetched with
  | Ret snap =>
      ({| data := Some snap; last_update_success := true;
          _first_fetch_lock := _first_fetch_lock self |}, Ret tt)
  | Raise _ =>
      ({| data := data self; last_update_success := false;
          _first_fetch_lock := _first_fetch_lock self |}, Ret tt)
  end.

(** * The lock *)

(** A lock object: the [_locked] flag and the queue [_waiters] of futures.
    A future is the task that awaits it and whether its result has been
    set. Cancellation is not modelled, so no future is ever cancelled. *)
Record Lock := {
  _locked : bool;
  _waiters : list (nat * bool)
}.

(** [asyncio.Lock()]. *)
Definition new_lock : Lock := {| _locked := false; _waiters := [] |}.

(** The test at the head of [Lock.acquire]: the lock is free and every
    waiter is cancelled, which without cancellation means there is none. *)
Definition can_acquire (lk : Lock) : bool :=
  negb (_locked lk) && match _waiters lk with [] => true | _ => false end.

(** The fast path of [Lock.acquire]. *)
Definition take (lk : Lock) : Lock :=
  {| _locked := true; _waiters := _waiters lk |}.

(** The slow path of [Lock.acquire], up to [await fut]. *)
Definition enqueue (t : nat) (lk : Lock) : Lock :=
  {| _locked := _locked lk; _waiters := _waiters lk ++ [(t, false)] |}.

(** The slow path of [Lock.acquire], after [await fut]: the future leaves
    the queue and the lock is taken. *)
Definition dequeue (t : nat) (lk : Lock) : Lock :=
  {| _locked := true;
     _waiters := filter (fun w => w.1 ≠ t) (_waiters lk) |}.

(** [Lock._wake_up_first]: the result of the first future is set. *)
Definition _wake_up_first (lk : Lock) : Lock :=
  match _waiters lk with
  | [] => lk
  | (t, _) :: ws => {| _locked := _locked lk; _waiters := (t, true) :: ws |}
  end.

(** [Lock.release]. *)
Definition release (lk : Lock) : outcome Lock :=
  if _locked lk
  then Ret (_wake_up_first {| _locked := false; _waiters := _waiters lk |})
  else Raise RuntimeError.

(** Whether the future of task [t] in the queue of [lk] has its result. *)
Definition woken (t : nat) (lk : Lock) : bool :=
  bool_decide ((t, true) ∈ _waiters lk).

(** * The event loop and [ensure_data] *)

(** Where a task that runs [ensure_data] is: not yet called, suspended in
    [acquire] of the lock at line 75, suspended in
    [async_request_refresh] at line 82 while it holds the lock, or
    finished, by a return or by an exception. *)
Inductive task :=
| Pending
| AwaitLock (l : nat)
| AwaitRefresh (l : nat)
| Finished (r : outcome unit).

(** The event loop with one dashboard: the coordinator object, the store of
    lock objects, the tasks, and two counters kept for the statements: how
    many times [async_request_refresh] was called by [ensure_data] and how
    many of these calls have finished. *)
Record system := {
  dashboard : ESPHomeDashboard;
  locks : list Lock;
  tasks : list task;
  refresh_calls : nat;
  refresh_done : nat
}.

Definition set_task (t : nat) (x : task) (s : system) : system :=
  {| dashboard := dashboard s; locks := locks s;
     tasks := <[t := x]> (tasks s);
     refresh_calls := refresh_calls s; refresh_done := refresh_done s |}.

Definition set_lock (l : nat) (lk : Lock) (s : system) : system :=
  {| dashboard := dashboard s; locks := <[l := lk]> (locks s);
     tasks := tasks s;
     refresh_calls := refresh_calls s; refresh_done := refresh_done s |}.

Definition set_dashboard (d : ESPHomeDashboard) (s : system) : system :=
  {| dashboard := d; locks := locks s; tasks := tasks s;
     refresh_calls := refresh_calls s; refresh_done := refresh_done s |}.

Definition set_first_fetch_lock (f : option nat) (d : ESPHomeDashboard)
  : ESPHomeDashboard :=
  {| data := data d; last_update_success := last_update_success d;
     _first_fetch_lock := f |}.

(** [ensure_data], from its entry to its first suspension or its return
    (lines 71 to 82). [None] is a reference to a lock that does not exist. *)
Definition ensure_data_enter (t : nat) (s : system) : option system :=
  if truthy (data (dashboard s)) then Some (set_task t (Finished (Ret tt)) s)
  else
    match _first_fetch_lock (dashboard s) with
    | Some l =>
        lk ← locks s !! l;
        if can_acquire lk then
          match release (take lk) with
          | Ret lk' => Some (set_task t (Finished (Ret tt)) (set_lock l lk' s))
          | Raise e => Some (set_task t (Finished (Raise e)) s)
          end
        else Some (set_task t (AwaitLock l) (set_lock l (enqueue t lk) s))
    | None =>
        let l := length (locks s) in
        Some {| dashboard := set_first_fetch_lock (Some l) (dashboard s);
                locks := locks s ++ [take new_lock];
                tasks := <[t := AwaitRefresh l]> (tasks s);
                refresh_calls := S (refresh_calls s);
                refresh_done := refresh_done s |}
    end.

(** [ensure_data], lines 75 to 77, once the future of the task has its
    result: the lock is taken, the body returns, the lock is released. *)
Definition ensure_data_locked (t l : nat) (s : system) : option system :=
  lk ← locks s !! l;
  if woken t lk then
    match release (dequeue t lk) with
    | Ret lk' => Some (set_task t (Finished (Ret tt)) (set_lock l lk' s))
    | Raise e => Some (set_task t (Finished (Raise e)) s)
    end
  else None.

(** [ensure_data], lines 82 to 84, once the fetch awaited by
    [async_request_refresh] has the outcome [fetched]: the refresh ends,
    the lock is released on the way out of [async with], and the attribute
    is reset only when the block was left without an exception. *)
Definition ensure_data_refreshed (t l : nat)
    (fetched : outcome (list ConfiguredDevice)) (s : system) : option system :=
  lk ← locks s !! l;
  let '(d, r) := async_request_refresh (dashboard s) fetched in
  let s1 :=
    {| dashboard := d; locks := locks s; tasks := tasks s;
       refresh_calls := refresh_calls s; refresh_done := S (refresh_done s) |} in
  match release lk with
  | Raise e => Some (set_task t (Finished (Raise e)) s1)
  | Ret lk' =>
      let s2 := set_lock l lk' s1 in
      match r with
      | Raise e => Some (set_task t (Finished (Raise e)) s2)
      | Ret _ =>
          Some (set_task t (Finished (Ret tt))
                  (set_dashboard (set_first_fetch_lock None d) s2))
      end
  end.

(** What the event loop can do next: start a call of [ensure_data] in task
    [t], end the fetch awaited by task [t] with an outcome, or resume task
    [t] whose future has its result. *)
Inductive event :=
| Call (t : nat)
| RefreshDone (t : nat) (fetched : outcome (list ConfiguredDevice))
| Wake (t : nat).

(** The task an event belongs to. *)
Definition event_task (ev : event) : nat :=
  match ev with Call t | RefreshDone t _ | Wake t => t end.

(** One turn of the event loop; [None] when the event cannot happen in
    the state. *)
Definition step (ev : event) (s : system) : option system :=
  match ev with
  | Call t =>
      match tasks s !! t with
      | Some Pending => ensure_data_enter t s
      | _ => None
      end
  | RefreshDone t fetched =>
      match tasks s !! t with
      | Some (AwaitRefresh l) => ensure_data_refreshed t l fetched s
      | _ => None
      end
  | Wake t =>
      match tasks s !! t with
      | Some (AwaitLock l) => ensure_data_locked t l s
      | _ => None
      end
  end.

(** A schedule is run from left to right. *)
Fixpoint run (sched : list event) (s : system) : option system :=
  match sched with
  | [] => Some s
  | ev :: rest => s' ← step ev s; run rest s'
  end.

(** [n] tasks that have not yet called [ensure_data] on a coordinator that
    holds [d] and whose gate is idle. *)
Definition init (d : option snapshot) (n : nat) : system :=
  {| dashboard := {| data := d; last_update_success := true;
                     _first_fetch_lock := None |};
     locks := []; tasks := replicate n Pending;
     refresh_calls := 0; refresh_done := 0 |}.

(** The number of calls of [async_request_refresh] made by [ensure_data]
    that have not finished. *)
Definition refreshing (x : task) : bool :=
  match x with AwaitRefresh _ => true | _ => false end.

Fixpoint count_refreshing (ts : list task) : nat :=
  match ts with
  | [] => 0
  | x :: ts => Nat.b2n (refreshing x) + count_refreshing ts
  end.

Definition in_flight (s : system) : nat := count_refreshing (tasks s).

(** The attribute [_first_fetch_lock] of the coordinator of a system. *)
Definition gate (s : system) : option nat := _first_fetch_lock (dashboard s).

Definition finished (x : task) : bool :=
  match x with Finished _ => true | _ => false end.

(** Events that resume a waiting call. *)
Definition is_wake (ev : event) : Prop :=
  match ev with Wake _ => True | _ => False end.

(** The outcome carried by the ends of fetches of a schedule. *)
Definition fetches_end_with (f : outcome (list ConfiguredDevice)) (ev : event) : Prop :=
  match ev with RefreshDone _ f' => f' = f | _ => True end.

(** * Invariants of the event loop *)

(** How far a task is from its end: a call that has not started can still
    suspend once. *)
Definition rank (x : task) : nat :=
  match x with Pending => 2 | AwaitLock _ | AwaitRefresh _ => 1 | Finished _ => 0 end.

Fixpoint work (ts : list task) : nat :=
  match ts with
  | [] => 0
  | x :: ts => rank x + work ts
  end.

(** What holds of the lock object [lk] stored at [l] when the gate is
    [fld] and the tasks are [ts]: its queue holds, once each, the tasks
    suspended in its [acquire]; when it is held, the gate refers to it, the
    task that refreshes holds it and no future has a result; when it is
    free, the gate does not refer to it and the first future, if any, has
    its result. *)
Definition lock_ok (fld : option nat) (ts : list task) (l : nat) (lk : Lock) : Prop :=
  NoDup (_waiters lk).*1 ∧
  (∀ t, t ∈ (_waiters lk).*1 ↔ ts !! t = Some (AwaitLock l)) ∧
  if _locked lk
  then fld = Some l ∧ (∃ t, ts !! t = Some (AwaitRefresh l)) ∧
       Forall (fun w => w.2 = false) (_waiters lk)
  else fld ≠ Some l ∧
       match _waiters lk with [] => True | w :: _ => w.2 = true end.

Record wf (s : system) : Prop := {
  wf_locks : ∀ l lk, locks s !! l = Some lk → lock_ok (gate s) (tasks s) l lk;
  wf_gate : ∀ l, gate s = Some l → l < length (locks s);
  wf_wait : ∀ t l, tasks s !! t = Some (AwaitLock l) → l < length (locks s);
  wf_fetch : ∀ t l, tasks s !! t = Some (AwaitRefresh l) →
             gate s = Some l ∧ truthy (data (dashboard s)) = false;
  wf_uniq : ∀ t1 t2 l1 l2, tasks s !! t1 = Some (AwaitRefresh l1) →
            tasks s !! t2 = Some (AwaitRefresh l2) → t1 = t2;
  wf_count : refresh_calls s = refresh_done s + in_flight s;
  wf_ret : ∀ t r, tasks s !! t = Some (Finished r) → r = Ret tt
}.

(** No future of any lock has its result. *)
Definition none_woken (s : system) : Prop :=
  ∀ l lk t, locks s !! l = Some lk → (t, true) ∉ _waiters lk.

Definition none_finished (s : system) : Prop :=
  ∀ t r, tasks s !! t ≠ Some (Finished r).

(** While calls are being issued on a coordinator without data and no
    fetch has ended: the data has not changed, nobody has returned, and the
    refresh was called once as soon as the gate is taken. *)
Definition issuing (d : option snapshot) (s : system) : Prop :=
  data (dashboard s) = d ∧ refresh_done s = 0 ∧ none_finished s ∧ none_woken s ∧
  ((refresh_calls s = 0 ∧ gate s = None) ∨
   (refresh_calls s = 1 ∧ gate s ≠ None)).

(** Events that do not start a call. *)
Definition not_call (ev : event) : Prop :=
  match ev with Call _ => False | _ => True end.

(** What can happen while the calls of [batch] are issued and their fetch
    has not ended: one of them starts, or a call that waited for an
    earlier fetch resumes. *)
Definition issuing_event (batch : list nat) (ev : event) : Prop :=
  match ev with
  | Call t => t ∈ batch
  | Wake _ => True
  | RefreshDone _ _ => False
  end.

(** No call of [batch] has returned, and those that wait do so on the lock
    the gate refers to. *)
Definition batch_waits (batch : list nat) (s : system) : Prop :=
  ∀ t, t ∈ batch →
       match tasks s !! t with
       | Some (Finished _) => False
       | Some (AwaitLock l) => gate s = Some l
       | _ => True
       end.

(** While the calls of [batch] are issued from [s0], where the gate is
    idle: the data and the number of refreshes ended are those of [s0],
    and the refresh has been called once more as soon as the gate is
    taken. *)
Definition batch_issuing (s0 : system) (batch : list nat) (s : system) : Prop :=
  data (dashboard s) = data (dashboard s0) ∧
  refresh_done s = refresh_done s0 ∧
  batch_waits batch s ∧
  ((refresh_calls s = refresh_calls s0 ∧ gate s = None) ∨
   (refresh_calls s = S (refresh_calls s0) ∧ gate s ≠ None)).

(** Once the calls of [batch] have all been issued from [s0] and no other
    call starts. *)
Definition batch_issued (s0 : system) (batch : list nat) (s : system) : Prop :=
  refresh_calls s = S (refresh_calls s0) ∧
  (∀ t, t ∈ batch → tasks s !! t ≠ Some Pending) ∧
  refresh_done s0 ≤ refresh_done s ∧
  (refresh_done s = refresh_done s0 → batch_waits batch s).

(** A task that is not in the middle of a call. *)
Definition settled (x : task) : bool :=
  match x with Pending | Finished _ => true | _ => false end.

(** * Sample values *)

Definition devA : ConfiguredDevice :=
  {| dev_name := "a"; current_version := "1.0"; other_keys := [] |}.

Definition devB : ConfiguredDevice :=
  {| dev_name := "b"; current_version := "2.0"; other_keys := [] |}.

(** Entry data of a device whose name is [n]. *)
Definition entry_named (n : string) : RuntimeEntryData :=
  {| entry_id := "entry";
     device_info := Some {| name := Some n; mac_address := "00:11:22:33:44:55";
                            esphome_version := "2023.1.0" |} |}.

(** Entry data without device information. *)
Definition entry_without_info : RuntimeEntryData :=
  {| entry_id := "entry"; device_info := None |}.

(** The entry data lacks the device identity. *)
Definition missing_identity (entry_data : RuntimeEntryData) : Prop :=
  match device_info entry_data with
  | None => True
  | Some info => name info = None
  end.

(** A coordinator that holds [d], with an idle gate. *)
Definition dashboard_with (d : option snapshot) : ESPHomeDashboard :=
  {| data := d; last_update_success := true; _first_fetch_lock := None |}.

(** A populated coordinator whose gate is held by a call of [ensure_data]
    that awaits its refresh. *)
Definition populated_refreshing : system :=
  {| dashboard := {| data := Some (index_by_name [devA; devB]);
                     last_update_success := true;
                     _first_fetch_lock := Some 0 |};
     locks := [take new_lock];
     tasks := [AwaitRefresh 0];
     refresh_calls := 1; refresh_done := 0 |}.

(** The state after a first call whose fetch returned no device. *)
Definition published_empty : system :=
  {| dashboard := {| data := Some ∅; last_update_success := true;
                     _first_fetch_lock := None |};
     locks := [new_lock];
     tasks := [Finished (Ret tt); Pending];
     refresh_calls := 1; refresh_done := 1 |}.

(** The state after a first call whose fetch returned two devices, with
    two more tasks that have not called yet. *)
Definition populated_idle : system :=
  {| dashboard := {| data := Some (index_by_name [devA; devB]);
                     last_update_success := true;
                     _first_fetch_lock := None |};
     locks := [new_lock];
     tasks := [Finished (Ret tt); Pending; Pending];
     refresh_calls := 1; refresh_done := 1 |}.

(** The state after a first call whose fetch failed, with two more tasks
    that have not called yet. *)
Definition failed_once : system :=
  {| dashboard := {| data := None; last_update_success := false;
                     _first_fetch_lock := None |};
     locks := [new_lock];
     tasks := [Finished (Ret tt); Pending; Pending];
     refresh_calls := 1; refresh_done := 1 |}.

(** * More invariants of the event loop *)

(** Until a first fetch has ended on a coordinator that held [d]: no call
    has returned, no future has its result and the data is still [d]. *)
Definition before_first_end (d : option snapshot) (s : system) : Prop :=
  refresh_done s = 0 →
  none_finished s ∧ none_woken s ∧ data (dashboard s) = d.


(** * The entity's initialiser and the dashboard in [hass.data] *)

(** [KEY_DASHBOARD]. *)
Definition KEY_DASHBOARD : string := "esphome_dashboard".

(** The unique id that [ESPHomeUpdateEntity.__init__] gives the entity:
    [f"{entry_data.entry_id}_update"]. *)
Definition update_unique_id (entry_data : RuntimeEntryData) : string :=
  entry_id entry_data +:+ "_update".

(** The signal [async_setup_entry] listens to when the device is not yet
    available: [f"esphome_{entry_data.entry_id}_on_device_update"]. *)
Definition device_update_signal (entry_data : RuntimeEntryData) : string :=
  "esphome_" +:+ entry_id entry_data +:+ "_on_device_update".

(** The kinds of connection of the device registry that the entity uses. *)
Inductive connection_type := CONNECTION_NETWORK_MAC.

(** The attributes that [ESPHomeUpdateEntity.__init__] sets besides the
    entry data and the coordinator: the unique id and the connections of
    the device information. *)
Record UpdateEntityAttrs := {
  _attr_unique_id : string;
  _attr_device_info : list (connection_type * string)
}.

(** [ESPHomeUpdateEntity.__init__]. *)
Definition ESPHomeUpdateEntity_init (entry_data : RuntimeEntryData)
    (coordinator : ESPHomeDashboard)
  : outcome (ESPHomeUpdateEntity * UpdateEntityAttrs) :=
  match device_info entry_data with
  | None => Raise AssertionError
  | Some info =>
      Ret ({| _entry_data := entry_data; coordinator := coordinator |},
           {| _attr_unique_id := update_unique_id entry_data;
              _attr_device_info := [(CONNECTION_NETWORK_MAC, mac_address info)] |})
  end.

(** [ESPHomeUpdateEntity.release_url]. *)
Definition release_url (self : ESPHomeUpdateEntity) : option string :=
  Some "https://esphome.io/changelog/".

Section Hass.

(** The HTTP client session and the values that other components keep in
    [hass.data] are opaque. *)
Context {Session Other : Type}.

(** [ESPHomeDashboardAPI(url, session)]. *)
Record ESPHomeDashboardAPI := {
  api_url : string;
  api_session : Session
}.

(** An [ESPHomeDashboard] object as [__init__] builds it: what it passes
    to the coordinator's initialiser, the two attributes it sets, and the
    attributes of the coordinator. *)
Record ESPHomeDashboardObject := {
  coordinator_name : string;
  update_interval_minutes : nat;
  addon_slug : string;
  api : ESPHomeDashboardAPI;
  attributes : ESPHomeDashboard
}.

Inductive hass_value :=
| DashboardValue (d : ESPHomeDashboardObject)
| OtherValue (o : Other).

(** [HomeAssistant]: the dictionary [hass.data]. *)
Record HomeAssistant := {
  hass_data : gmap string hass_value
}.

(** [async_get_clientsession] belongs to
    [homeassistant.helpers.aiohttp_client], which is not part of the two
    files. It returns the client session of [hass] and can write to
    [hass.data] (it keeps the session there once it has made it); here it
    is any function that returns a session and the [hass] it leaves. *)
Variable async_get_clientsession : HomeAssistant → Session * HomeAssistant.

(** [ESPHomeDashboard.__init__]. A new coordinator has no data, and the
    class attribute [_first_fetch_lock] is [None]. *)
Definition ESPHomeDashboard_init (addon : string) (url : string)
    (session : Session) : ESPHomeDashboardObject :=
  {| coordinator_name := "ESPHome Dashboard";
     update_interval_minutes := 5;
     addon_slug := addon;
     api := {| api_url := url; api_session := session |};
     attributes := dashboard_with None |}.

(** [async_get_dashboard]. *)
Definition async_get_dashboard (hass : HomeAssistant) : option hass_value :=
  hass_data hass !! KEY_DASHBOARD.

(** [async_set_dashboard_info]; [port] is a Python integer. The arguments
    of the constructor are evaluated first, the session last among them,
    and the new object is then stored in the [hass.data] that
    [async_get_clientsession] has left. *)
Definition async_set_dashboard_info (hass : HomeAssistant)
    (addon : string) (host : string) (port : Z) : HomeAssistant :=
  let url := "http://" +:+ host +:+ ":" +:+ pretty port in
  let '(session, hass1) := async_get_clientsession hass in
  {| hass_data :=
       <[KEY_DASHBOARD := DashboardValue (ESPHomeDashboard_init addon url session)]>
         (hass_data hass1) |}.

End Hass.

Arguments ESPHomeDashboardAPI : clear implicits.
Arguments ESPHomeDashboardObject : clear implicits.
Arguments hass_value : clear implicits.
Arguments HomeAssistant : clear implicits.

(** A session helper that keeps the session it makes in [hass.data]. *)
Definition storing_clientsession (hass : HomeAssistant nat nat)
  : nat * HomeAssistant nat nat :=
  match hass_data hass !! "aiohttp_clientsession" with
  | Some (OtherValue session) => (session, hass)
  | _ => (7, {| hass_data := <["aiohttp_clientsession" := OtherValue 7]> (hass_data hass) |})
  end.

(** * Lookup in the snapshot *)

Section Lookup.

Implicit Types (m : snapshot) (devices : list ConfiguredDevice) (n : string).

Lemma truthy_false_lookup m n : truthy (Some m) = false → m !! n = None.
Proof.
  unfold truthy. intros H.
  destruct (Nat.eqb_spec (size m) 0) as [Hs|Hs]; [|done].
  apply map_size_empty_iff in Hs. subst m. apply lookup_empty.
Qed.

Lemma truthy_true_inv d : truthy d = true → ∃ m, d = Some m ∧ m ≠ ∅.
Proof.
  destruct d as [m|]; [|done]. intros H. exists m. split; [done|].
  intros ->. unfold truthy in H. by rewrite map_size_empty in H.
Qed.

Lemma truthy_empty : truthy (Some ∅) = false.
Proof. unfold truthy. by rewrite map_size_empty. Qed.

(** Storing the devices one after the other on top of [m]: the entry of
    [n] is the last device of that name, or what [m] had. *)
Lemma foldl_insert_lookup devices m n :
  foldl (fun acc dev => <[dev_name dev := dev]> acc) m devices !! n =
  match last (filter (fun dev => dev_name dev = n) devices) with
  | Some dev => Some dev
  | None => m !! n
  end.
Proof.
  revert m. induction devices as [|dev devices IH]; intros m; [done|].
  cbn [foldl]. rewrite IH, filter_cons.
  destruct (decide (dev_name dev = n)) as [->|Hne].
  - rewrite last_cons. destruct (last _); [done|]. by rewrite lookup_insert_eq.
  - destruct (last _); [done|]. by rewrite lookup_insert_ne.
Qed.

Lemma index_by_name_lookup devices n :
  index_by_name devices !! n = last (filter (fun dev => dev_name dev = n) devices).
Proof.
  unfold index_by_name. rewrite foldl_insert_lookup, lookup_empty.
  by destruct (last _).
Qed.

End Lookup.

(** * Lists of tasks *)

Section TaskLists.

Implicit Types (ts : list task) (x y : task) (t : nat).

Lemma count_refreshing_insert ts t x y :
  ts !! t = Some x →
  count_refreshing (<[t := y]> ts) + Nat.b2n (refreshing x) =
  count_refreshing ts + Nat.b2n (refreshing y).
Proof.
  revert t. induction ts as [|z ts IH]; intros [|t] H; try done.
  - injection H as ->. cbn [insert list_insert count_refreshing]. lia.
  - specialize (IH t H). change (<[S t := y]> (z :: ts)) with (z :: <[t := y]> ts).
    cbn [count_refreshing]. lia.
Qed.

Lemma count_refreshing_none ts :
  (∀ t l, ts !! t ≠ Some (AwaitRefresh l)) → count_refreshing ts = 0.
Proof.
  induction ts as [|z ts IH]; intros H; [done|].
  cbn [count_refreshing]. rewrite IH.
  - destruct z as [| |l|]; try done. by specialize (H 0 l).
  - intros t l. apply (H (S t) l).
Qed.

Lemma count_refreshing_unique ts :
  (∀ t1 t2 l1 l2, ts !! t1 = Some (AwaitRefresh l1) →
                  ts !! t2 = Some (AwaitRefresh l2) → t1 = t2) →
  count_refreshing ts ≤ 1.
Proof.
  induction ts as [|z ts IH]; intros H; [cbn; lia|].
  cbn [count_refreshing].
  destruct z as [| |l|]; cbn [refreshing Nat.b2n];
    try (apply IH; intros t1 t2 l1 l2 H1 H2;
         specialize (H (S t1) (S t2) l1 l2 H1 H2); lia).
  rewrite count_refreshing_none; [lia|].
  intros t l' Ht. by specialize (H 0 (S t) l l' eq_refl Ht).
Qed.

Lemma work_insert ts t x y :
  ts !! t = Some x → work (<[t := y]> ts) + rank x = work ts + rank y.
Proof.
  revert t. induction ts as [|z ts IH]; intros [|t] H; try done.
  - injection H as ->. cbn [insert list_insert work]. lia.
  - specialize (IH t H). change (<[S t := y]> (z :: ts)) with (z :: <[t := y]> ts).
    cbn [work]. lia.
Qed.

Lemma work_replicate_pending n : work (replicate n Pending) = 2 * n.
Proof. induction n as [|n IH]; [done|]. cbn [replicate work rank]. lia. Qed.

End TaskLists.

(** * Turns of the event loop *)

(** Every turn of the event loop moves exactly one task, and moves it
    forward. *)
Lemma step_tasks ev s s' :
  step ev s = Some s' →
  ∃ x y, tasks s !! event_task ev = Some x ∧
         tasks s' = <[event_task ev := y]> (tasks s) ∧ rank y < rank x.
Proof.
  intros H.
  unfold step, ensure_data_enter, ensure_data_locked, ensure_data_refreshed,
    async_request_refresh in H.
  destruct ev as [t|t f|t]; cbn [event_task];
    repeat (case_match; simplify_option_eq);
    (eexists _, _; split; [done|]; split; [done|]; cbn; lia).
Qed.

(** What a turn does to the two counters. *)
Lemma step_counters ev s s' :
  step ev s = Some s' →
  match ev with
  | Call _ => refresh_done s' = refresh_done s
  | RefreshDone _ _ =>
      refresh_calls s' = refresh_calls s ∧ refresh_done s' = S (refresh_done s)
  | Wake _ =>
      refresh_calls s' = refresh_calls s ∧ refresh_done s' = refresh_done s
  end.
Proof.
  intros H.
  unfold step, ensure_data_enter, ensure_data_locked, ensure_data_refreshed,
    async_request_refresh in H.
  destruct ev as [t|t f|t]; repeat (case_match; simplify_option_eq); done.
Qed.

Lemma step_length ev s s' :
  step ev s = Some s' → length (tasks s') = length (tasks s).
Proof.
  intros (x & y & _ & -> & _)%step_tasks. apply length_insert.
Qed.

Lemma step_work ev s s' :
  step ev s = Some s' → work (tasks s') < work (tasks s).
Proof.
  intros (x & y & Hx & -> & Hlt)%step_tasks.
  pose proof (work_insert _ _ _ y Hx). lia.
Qed.

Lemma step_not_pending ev s s' u :
  step ev s = Some s' →
  tasks s !! u ≠ Some Pending → tasks s' !! u ≠ Some Pending.
Proof.
  intros (x & y & Hx & -> & Hlt)%step_tasks Hu.
  destruct (decide (event_task ev = u)) as [<-|Hne].
  - rewrite list_lookup_insert_eq by (by eapply lookup_lt_Some).
    intros [= ->]. destruct x; cbn in Hlt; lia.
  - by rewrite list_lookup_insert_ne.
Qed.

Lemma step_started ev s s' :
  step ev s = Some s' → tasks s' !! event_task ev ≠ Some Pending.
Proof.
  intros (x & y & Hx & -> & Hlt)%step_tasks.
  rewrite list_lookup_insert_eq by (by eapply lookup_lt_Some).
  intros [= ->]. destruct x; cbn in Hlt; lia.
Qed.

Lemma step_failed_refresh_data s t e s' :
  step (RefreshDone t (Raise e)) s = Some s' →
  data (dashboard s') = data (dashboard s).
Proof.
  intros Hstep. cbn in Hstep.
  destruct (tasks s !! t) as [[| |l|]|]; try done.
  unfold ensure_data_refreshed in Hstep.
  destruct (locks s !! l) as [lk|]; [|done]. cbn in Hstep.
  destruct (release lk); by inversion Hstep.
Qed.

Lemma run_app a b s :
  run (a ++ b) s = s' ← run a s; run b s'.
Proof.
  revert s. induction a as [|ev a IH]; intros s; [done|].
  cbn. destruct (step ev s); cbn; [apply IH|done].
Qed.

Lemma run_app_inv a b s s' :
  run (a ++ b) s = Some s' → ∃ s1, run a s = Some s1 ∧ run b s1 = Some s'.
Proof.
  rewrite run_app. destruct (run a s) as [s1|]; [|done]. intros H. by exists s1.
Qed.

Lemma run_cons_inv ev sched s s' :
  run (ev :: sched) s = Some s' →
  ∃ s1, step ev s = Some s1 ∧ run sched s1 = Some s'.
Proof.
  change (run (ev :: sched) s) with (s1 ← step ev s; run sched s1).
  destruct (step ev s) as [s1|]; [|done]. intros H. by exists s1.
Qed.

Lemma run_length sched s s' :
  run sched s = Some s' →
  length (tasks s') = length (tasks s) ∧
  length sched + work (tasks s') ≤ work (tasks s).
Proof.
  revert s. induction sched as [|ev sched IH]; intros s H.
  - injection H as <-. cbn. lia.
  - cbn in H. destruct (step ev s) as [s1|] eqn:H1; [|done]. cbn in H.
    destruct (IH _ H) as [Hl Hw]. pose proof (step_length _ _ _ H1).
    pose proof (step_work _ _ _ H1). cbn. lia.
Qed.

Lemma run_not_pending sched s s' u :
  run sched s = Some s' →
  tasks s !! u ≠ Some Pending → tasks s' !! u ≠ Some Pending.
Proof.
  revert s. induction sched as [|ev sched IH]; intros s H Hu.
  - by injection H as <-.
  - cbn in H. destruct (step ev s) as [s1|] eqn:H1; [|done].
    eapply IH; [done|]. by eapply step_not_pending.
Qed.

Lemma wake_frame t s s' :
  step (Wake t) s = Some s' →
  dashboard s' = dashboard s ∧ length (locks s') = length (locks s) ∧
  refresh_calls s' = refresh_calls s ∧ refresh_done s' = refresh_done s.
Proof.
  intros H. cbn in H. unfold ensure_data_locked in H.
  repeat (case_match; simplify_option_eq); cbn; by rewrite ?length_insert.
Qed.

Lemma wakes_frame mid s s' :
  Forall is_wake mid → run mid s = Some s' →
  dashboard s' = dashboard s ∧ length (locks s') = length (locks s) ∧
  refresh_calls s' = refresh_calls s ∧ refresh_done s' = refresh_done s.
Proof.
  intros Hmid. revert s. induction Hmid as [|ev mid Hev _ IH]; intros s H.
  - by injection H as <-.
  - apply run_cons_inv in H as (s1 & H1 & H).
    destruct ev as [|?|t]; try done.
    destruct (wake_frame _ _ _ H1) as (Hd1 & Hl1 & Hc1 & Hf1).
    destruct (IH _ H) as (Hd2 & Hl2 & Hc2 & Hf2).
    repeat split; congruence.
Qed.

(** * The lock: lemmas *)

Section LockLemmas.

Implicit Types (lk : Lock) (ws : list (nat * bool)) (t : nat).

Lemma wake_waiters lk : (_waiters (_wake_up_first lk)).*1 = (_waiters lk).*1.
Proof.
  unfold _wake_up_first. destruct (_waiters lk) as [|[t b] ws] eqn:E; cbn; by rewrite ?E.
Qed.

Lemma wake_locked lk : _locked (_wake_up_first lk) = _locked lk.
Proof. unfold _wake_up_first. by destruct (_waiters lk) as [|[t b] ws] eqn:E. Qed.

Lemma wake_head lk :
  match _waiters (_wake_up_first lk) with [] => True | w :: _ => w.2 = true end.
Proof. unfold _wake_up_first. by destruct (_waiters lk) as [|[t b] ws] eqn:E; rewrite ?E. Qed.

Lemma elem_of_filter_waiters ws t u :
  u ∈ (filter (fun w => w.1 ≠ t) ws).*1 ↔ u ≠ t ∧ u ∈ ws.*1.
Proof.
  rewrite !list_elem_of_fmap. split.
  - intros ([u' b] & -> & [Hne Hin]%list_elem_of_filter). split; [done|].
    by exists (u', b).
  - intros [Hne ([u' b] & -> & Hin)]. exists (u', b). split; [done|].
    by apply list_elem_of_filter.
Qed.

Lemma NoDup_filter_waiters ws t :
  NoDup ws.*1 → NoDup (filter (fun w => w.1 ≠ t) ws).*1.
Proof.
  induction ws as [|[u b] ws IH]; [done|].
  rewrite fmap_cons, NoDup_cons. intros [Hu Hnd]. rewrite filter_cons.
  destruct (decide ((u, b).1 ≠ t)); [|by apply IH].
  rewrite fmap_cons. apply NoDup_cons. split; [|by apply IH].
  rewrite elem_of_filter_waiters. tauto.
Qed.

Lemma can_acquire_inv lk :
  can_acquire lk = true → lk = {| _locked := false; _waiters := [] |}.
Proof. destruct lk as [[] [|w ws]]; by cbn. Qed.

Lemma woken_elem t lk : woken t lk = true → (t, true) ∈ _waiters lk.
Proof. unfold woken. intros H. by apply bool_decide_eq_true in H. Qed.

End LockLemmas.

(** A change of a task that is neither in the queue of the lock nor its
    holder leaves what holds of the lock as it is. *)
Lemma lock_ok_frame fld fld' ts t x y l lk :
  lock_ok fld ts l lk → ts !! t = Some x →
  x ≠ AwaitLock l → y ≠ AwaitLock l → x ≠ AwaitRefresh l →
  (fld = Some l ↔ fld' = Some l) →
  lock_ok fld' (<[t := y]> ts) l lk.
Proof.
  intros (Hnd & Hmem & Hst) Ht Hx Hy Hx' Hfld.
  pose proof (lookup_lt_Some _ _ _ Ht) as Hlt.
  split; [done|]. split.
  - intros u. rewrite Hmem. destruct (decide (u = t)) as [->|Hne].
    + rewrite list_lookup_insert_eq by done. rewrite Ht.
      split; intros [=]; congruence.
    + by rewrite list_lookup_insert_ne.
  - destruct (_locked lk).
    + destruct Hst as (Hf & (th & Hth) & Hfa). split; [tauto|]. split; [|done].
      exists th. rewrite list_lookup_insert_ne; [done|]. congruence.
    + destruct Hst as [Hf Hh]. split; [tauto|done].
Qed.

(** * Every turn keeps the state well formed *)

(** A lookup in a list of tasks updated at [t], by cases on the index. *)
Ltac insert_cases u t :=
  destruct (decide (u = t)) as [->|?];
  [rewrite list_lookup_insert_eq by done
  |rewrite list_lookup_insert_ne by done].

(** A call that returns without having suspended changes its task only. *)
Lemma wf_finish s t :
  wf s → tasks s !! t = Some Pending → wf (set_task t (Finished (Ret tt)) s).
Proof.
  intros [Hl Hg Hw Hf Hu Hc Hr] Ht.
  pose proof (lookup_lt_Some _ _ _ Ht) as Hlt.
  split; cbn.
  - intros l lk Hlk. eapply lock_ok_frame; eauto; done.
  - done.
  - intros u l. insert_cases u t; [done|apply Hw].
  - intros u l. insert_cases u t; [done|apply Hf].
  - intros u1 u2 l1 l2.
    destruct (decide (u1 = t)) as [->|?]; [by rewrite list_lookup_insert_eq|].
    destruct (decide (u2 = t)) as [->|?]; [by rewrite list_lookup_insert_eq|].
    rewrite !list_lookup_insert_ne by done. apply Hu.
  - unfold in_flight in *. cbn.
    pose proof (count_refreshing_insert _ _ _ (Finished (Ret tt)) Ht). cbn in *. lia.
  - intros u r. insert_cases u t; [congruence|apply Hr].
Qed.

Lemma gate_locked s l lk :
  wf s → gate s = Some l → locks s !! l = Some lk → _locked lk = true.
Proof.
  intros Hwf Hg Hlk. destruct (wf_locks _ Hwf _ _ Hlk) as (_ & _ & Hst).
  destruct (_locked lk); [done|]. by destruct Hst.
Qed.

Lemma wf_enqueue s t l lk :
  wf s → tasks s !! t = Some Pending → gate s = Some l →
  locks s !! l = Some lk →
  wf (set_task t (AwaitLock l) (set_lock l (enqueue t lk) s)).
Proof.
  intros Hwf Ht Hg Hlk. pose proof (gate_locked _ _ _ Hwf Hg Hlk) as Hlocked.
  destruct Hwf as [Hl Hgl Hw Hf Hu Hc Hr].
  pose proof (lookup_lt_Some _ _ _ Ht) as Hlt.
  pose proof (lookup_lt_Some _ _ _ Hlk) as Hllt.
  split; cbn.
  - intros l' lk'. destruct (decide (l' = l)) as [->|Hne].
    + rewrite list_lookup_insert_eq by done. intros [= <-].
      destruct (Hl _ _ Hlk) as (Hnd & Hmem & Hst). rewrite Hlocked in Hst.
      destruct Hst as (_ & [th Hth] & Hfa).
      unfold lock_ok, enqueue; cbn. rewrite Hlocked, fmap_app. cbn.
      assert (t ∉ (_waiters lk).*1) as Hnotin.
      { rewrite Hmem, Ht. done. }
      split; [|split].
      * apply NoDup_app. split; [done|]. split; [|apply NoDup_singleton].
        intros u Hu1 ->%list_elem_of_singleton. done.
      * intros u. rewrite elem_of_app, list_elem_of_singleton, Hmem.
        insert_cases u t; [tauto|tauto].
      * split; [done|]. split.
        -- exists th. rewrite list_lookup_insert_ne; [done|]. congruence.
        -- apply Forall_app. split; [done|]. by apply Forall_singleton.
    + rewrite list_lookup_insert_ne by done. intros Hlk'.
      eapply lock_ok_frame; eauto; congruence.
  - rewrite length_insert. done.
  - rewrite length_insert. intros u l'. insert_cases u t; [congruence|apply Hw].
  - intros u l'. insert_cases u t; [done|apply Hf].
  - intros u1 u2 l1 l2.
    destruct (decide (u1 = t)) as [->|?]; [by rewrite list_lookup_insert_eq|].
    destruct (decide (u2 = t)) as [->|?]; [by rewrite list_lookup_insert_eq|].
    rewrite !list_lookup_insert_ne by done. apply Hu.
  - unfold in_flight in *. cbn.
    pose proof (count_refreshing_insert _ _ _ (AwaitLock l) Ht). cbn in *. lia.
  - intros u r. insert_cases u t; [done|apply Hr].
Qed.

Lemma no_fetcher s :
  wf s → gate s = None → ∀ t l, tasks s !! t ≠ Some (AwaitRefresh l).
Proof. intros Hwf Hg t l Ht. destruct (wf_fetch _ Hwf _ _ Ht) as [Hg' _]. congruence. Qed.

Lemma wf_fetcher s t :
  wf s → tasks s !! t = Some Pending → gate s = None →
  truthy (data (dashboard s)) = false →
  wf {| dashboard := set_first_fetch_lock (Some (length (locks s))) (dashboard s);
        locks := locks s ++ [take new_lock];
        tasks := <[t := AwaitRefresh (length (locks s))]> (tasks s);
        refresh_calls := S (refresh_calls s);
        refresh_done := refresh_done s |}.
Proof.
  intros Hwf Ht Hg Hd. pose proof (no_fetcher _ Hwf Hg) as Hnone.
  destruct Hwf as [Hl Hgl Hw Hf Hu Hc Hr].
  pose proof (lookup_lt_Some _ _ _ Ht) as Hlt.
  split; cbn.
  - intros l lk Hlk. unfold gate; cbn.
    apply lookup_app_Some in Hlk as [Hlk|[Hge Hlk]].
    + pose proof (lookup_lt_Some _ _ _ Hlk) as Hllt.
      eapply (lock_ok_frame (gate s)); eauto; try congruence.
      rewrite Hg. split; [done|]. intros [= <-]. lia.
    + apply list_lookup_singleton_Some in Hlk as [Hz <-].
      assert (l = length (locks s)) as -> by lia.
      unfold lock_ok; cbn. split; [apply NoDup_nil_2|]. split.
      * intros u. rewrite elem_of_nil. split; [done|].
        destruct (decide (u = t)) as [->|?].
        -- by rewrite list_lookup_insert_eq.
        -- rewrite list_lookup_insert_ne by done. intros Hu'%Hw. lia.
      * split; [done|]. split; [|done]. exists t. by rewrite list_lookup_insert_eq.
  - unfold gate; cbn. intros l [= <-]. rewrite length_app. cbn. lia.
  - rewrite length_app. intros u l. destruct (decide (u = t)) as [->|?].
    + by rewrite list_lookup_insert_eq.
    + rewrite list_lookup_insert_ne by done. intros Hu'%Hw. lia.
  - unfold gate; cbn. intros u l. destruct (decide (u = t)) as [->|?].
    + rewrite list_lookup_insert_eq by done. by intros [= <-].
    + rewrite list_lookup_insert_ne by done. intros Hu'. by apply Hnone in Hu'.
  - intros u1 u2 l1 l2.
    destruct (decide (u1 = t)) as [->|?]; destruct (decide (u2 = t)) as [->|?];
      try done; rewrite ?list_lookup_insert_eq, ?list_lookup_insert_ne by done;
      intros H1 H2; exfalso; first [by eapply Hnone, H1 | by eapply Hnone, H2].
  - unfold in_flight in *. cbn.
    pose proof (count_refreshing_insert _ _ _ (AwaitRefresh (length (locks s))) Ht).
    cbn in *. lia.
  - intros u r. insert_cases u t; [done|apply Hr].
Qed.

Lemma wf_refreshed s t l lk d :
  wf s → tasks s !! t = Some (AwaitRefresh l) → locks s !! l = Some lk →
  wf (set_task t (Finished (Ret tt))
        (set_dashboard (set_first_fetch_lock None d)
           (set_lock l (_wake_up_first {| _locked := false; _waiters := _waiters lk |})
              {| dashboard := d; locks := locks s; tasks := tasks s;
                 refresh_calls := refresh_calls s;
                 refresh_done := S (refresh_done s) |}))).
Proof.
  intros [Hl Hgl Hw Hf Hu Hc Hr] Ht Hlk.
  pose proof (lookup_lt_Some _ _ _ Ht) as Hlt.
  pose proof (lookup_lt_Some _ _ _ Hlk) as Hllt.
  destruct (Hf _ _ Ht) as [Hg _].
  assert (∀ u l', u ≠ t → tasks s !! u ≠ Some (AwaitRefresh l')) as Hnone.
  { intros u l' Hne Hu'. apply Hne. eapply Hu; eauto. }
  split; cbn.
  - intros l' lk'. unfold gate; cbn. destruct (decide (l' = l)) as [->|Hne].
    + rewrite list_lookup_insert_eq by done. intros [= <-].
      destruct (Hl _ _ Hlk) as (Hnd & Hmem & Hst).
      unfold lock_ok. rewrite wake_waiters, wake_locked. cbn.
      split; [done|]. split.
      * intros u. rewrite Hmem. destruct (decide (u = t)) as [->|?].
        -- rewrite list_lookup_insert_eq by done. rewrite Ht. split; intros [=].
        -- by rewrite list_lookup_insert_ne.
      * split; [done|]. apply wake_head.
    + rewrite list_lookup_insert_ne by done. intros Hlk'.
      eapply (lock_ok_frame (gate s)); eauto; try congruence.
      rewrite Hg. split; intros [=]. congruence.
  - done.
  - rewrite length_insert. intros u l'. insert_cases u t; [done|apply Hw].
  - intros u l'. destruct (decide (u = t)) as [->|?].
    + by rewrite list_lookup_insert_eq.
    + rewrite list_lookup_insert_ne by done. intros Hu'. by apply Hnone in Hu'.
  - intros u1 u2 l1 l2.
    destruct (decide (u1 = t)) as [->|?]; [by rewrite list_lookup_insert_eq|].
    rewrite (list_lookup_insert_ne _ t u1) by done. intros Hu'. by apply Hnone in Hu'.
  - unfold in_flight in *. cbn.
    pose proof (count_refreshing_insert _ _ _ (Finished (Ret tt)) Ht). cbn in *. lia.
  - intros u r. insert_cases u t; [congruence|apply Hr].
Qed.

Lemma wf_resumed s t l lk :
  wf s → tasks s !! t = Some (AwaitLock l) → locks s !! l = Some lk →
  woken t lk = true →
  wf (set_task t (Finished (Ret tt))
        (set_lock l (_wake_up_first
                       {| _locked := false;
                          _waiters := filter (fun w => w.1 ≠ t) (_waiters lk) |}) s)).
Proof.
  intros [Hl Hgl Hw Hf Hu Hc Hr] Ht Hlk Hwk%woken_elem.
  pose proof (lookup_lt_Some _ _ _ Ht) as Hlt.
  pose proof (lookup_lt_Some _ _ _ Hlk) as Hllt.
  split; cbn.
  - intros l' lk'. unfold gate; cbn. destruct (decide (l' = l)) as [->|Hne].
    + rewrite list_lookup_insert_eq by done. intros [= <-].
      destruct (Hl _ _ Hlk) as (Hnd & Hmem & Hst).
      destruct (_locked lk).
      { destruct Hst as (_ & _ & Hfa). rewrite Forall_forall in Hfa.
        by specialize (Hfa _ Hwk). }
      destruct Hst as [Hg _].
      unfold lock_ok. rewrite wake_waiters, wake_locked. cbn.
      split; [by apply NoDup_filter_waiters|]. split.
      * intros u. rewrite elem_of_filter_waiters, Hmem.
        insert_cases u t; [split; [tauto|done]|tauto].
      * split; [done|]. apply wake_head.
    + rewrite list_lookup_insert_ne by done. intros Hlk'.
      eapply (lock_ok_frame (gate s)); eauto; congruence.
  - by rewrite length_insert.
  - rewrite length_insert. intros u l'. insert_cases u t; [done|apply Hw].
  - intros u l'. insert_cases u t; [done|apply Hf].
  - intros u1 u2 l1 l2.
    destruct (decide (u1 = t)) as [->|?]; [by rewrite list_lookup_insert_eq|].
    destruct (decide (u2 = t)) as [->|?]; [by rewrite list_lookup_insert_eq|].
    rewrite !list_lookup_insert_ne by done. apply Hu.
  - unfold in_flight in *. cbn.
    pose proof (count_refreshing_insert _ _ _ (Finished (Ret tt)) Ht). cbn in *. lia.
  - intros u r. insert_cases u t; [congruence|apply Hr].
Qed.

Lemma step_wf ev s s' : wf s → step ev s = Some s' → wf s'.
Proof.
  intros Hwf H. destruct ev as [t|t f|t]; cbn in H;
    destruct (tasks s !! t) as [[|l|l|r]|] eqn:Ht; try done.
  - unfold ensure_data_enter in H.
    destruct (truthy _) eqn:Hd.
    { injection H as <-. by apply wf_finish. }
    destruct (_first_fetch_lock _) as [l|] eqn:Hg.
    + destruct (locks s !! l) as [lk|] eqn:Hlk; [|done]. cbn in H.
      destruct (can_acquire lk) eqn:Hacq.
      * apply can_acquire_inv in Hacq.
        pose proof (gate_locked _ _ _ Hwf Hg Hlk). by subst lk.
      * injection H as <-. by apply wf_enqueue.
    + injection H as <-. by apply wf_fetcher.
  - unfold ensure_data_refreshed in H.
    destruct (locks s !! l) as [lk|] eqn:Hlk; [|done]. cbn in H.
    destruct (wf_fetch _ Hwf _ _ Ht) as [Hg _].
    pose proof (gate_locked _ _ _ Hwf Hg Hlk) as Hlocked.
    unfold release in H. rewrite Hlocked in H.
    destruct (async_request_refresh _ _) as [d [[]|e]] eqn:Hr.
    + injection H as <-. by apply wf_refreshed.
    + unfold async_request_refresh in Hr. by destruct (_async_update_data f).
  - unfold ensure_data_locked in H.
    destruct (locks s !! l) as [lk|] eqn:Hlk; [|done]. cbn in H.
    destruct (woken t lk) eqn:Hwk; [|done].
    injection H as <-. by apply wf_resumed.
Qed.

Lemma init_wf d n : wf (init d n).
Proof.
  split; cbn; try done.
  - intros t l [[=] _]%lookup_replicate.
  - intros t l [[=] _]%lookup_replicate.
  - intros t1 t2 l1 l2 [[=] _]%lookup_replicate.
  - unfold in_flight. cbn. rewrite count_refreshing_none; [done|].
    intros t l [[=] _]%lookup_replicate.
  - intros t r [[=] _]%lookup_replicate.
Qed.

Lemma run_wf sched s s' : wf s → run sched s = Some s' → wf s'.
Proof.
  revert s. induction sched as [|ev sched IH]; intros s Hwf H.
  - by injection H as <-.
  - cbn in H. destruct (step ev s) as [s1|] eqn:H1; [|done].
    eapply IH; [|done]. by eapply step_wf.
Qed.

(** * No deadlock *)

Lemma enabled_call s t :
  wf s → tasks s !! t = Some Pending → ∃ s', step (Call t) s = Some s'.
Proof.
  intros Hwf Ht. cbn. rewrite Ht. unfold ensure_data_enter.
  destruct (truthy _); [eauto|].
  destruct (_first_fetch_lock _) as [l|] eqn:Hg; [|eauto].
  destruct (lookup_lt_is_Some_2 (locks s) l) as [lk Hlk]; [by apply wf_gate|].
  rewrite Hlk. cbn. destruct (can_acquire lk); eauto.
Qed.

Lemma enabled_refresh_done s t l f :
  wf s → tasks s !! t = Some (AwaitRefresh l) →
  ∃ s', step (RefreshDone t f) s = Some s'.
Proof.
  intros Hwf Ht. cbn. rewrite Ht. unfold ensure_data_refreshed.
  destruct (wf_fetch _ Hwf _ _ Ht) as [Hg _].
  destruct (lookup_lt_is_Some_2 (locks s) l) as [lk Hlk]; [by apply wf_gate|].
  rewrite Hlk. cbn. unfold release. rewrite (gate_locked _ _ _ Hwf Hg Hlk).
  destruct (async_request_refresh _ _) as [d [[]|e]]; eauto.
Qed.

Lemma enabled_wake s t l lk :
  wf s → tasks s !! t = Some (AwaitLock l) → locks s !! l = Some lk →
  woken t lk = true → ∃ s', step (Wake t) s = Some s'.
Proof.
  intros Hwf Ht Hlk Hwk. cbn. rewrite Ht. unfold ensure_data_locked.
  rewrite Hlk. cbn. rewrite Hwk. cbn. eauto.
Qed.

(** No deadlock: while a call has not finished, the event loop has
    something to do. *)
Lemma progress f s t x :
  wf s → tasks s !! t = Some x → finished x = false →
  ∃ ev s', step ev s = Some s' ∧ fetches_end_with f ev.
Proof.
  intros Hwf Ht Hx. destruct x as [|l|l|r]; [| | |done].
  - destruct (enabled_call _ _ Hwf Ht) as [s' H]. by exists (Call t), s'.
  - destruct (lookup_lt_is_Some_2 (locks s) l) as [lk Hlk];
      [by eapply wf_wait|].
    destruct (wf_locks _ Hwf _ _ Hlk) as (Hnd & Hmem & Hst).
    destruct (_locked lk).
    + destruct Hst as (_ & [th Hth] & _).
      destruct (enabled_refresh_done _ _ _ f Hwf Hth) as [s' H].
      by exists (RefreshDone th f), s'.
    + destruct Hst as [_ Hhead].
      assert (t ∈ (_waiters lk).*1) as Hin by by apply Hmem.
      destruct (_waiters lk) as [|[u b] ws] eqn:Hws; [by apply elem_of_nil in Hin|].
      cbn in Hhead. subst b.
      assert (tasks s !! u = Some (AwaitLock l)) as Hu.
      { apply Hmem. cbn. apply list_elem_of_here. }
      destruct (enabled_wake s u l lk Hwf Hu Hlk) as [s' H].
      { unfold woken. apply bool_decide_eq_true. rewrite Hws. apply list_elem_of_here. }
      by exists (Wake u), s'.
  - destruct (enabled_refresh_done _ _ _ f Hwf Ht) as [s' H].
    by exists (RefreshDone t f), s'.
Qed.

(** Every state can be run to the end of all calls. *)
Lemma completes f s :
  wf s →
  ∃ rest s', run rest s = Some s' ∧
             Forall (fun x => finished x = true) (tasks s') ∧
             Forall (fetches_end_with f) rest.
Proof.
  remember (work (tasks s)) as k eqn:Hk. revert s Hk.
  induction k as [k IH] using lt_wf_ind. intros s -> Hwf.
  destruct (decide (Forall (fun x => finished x = true) (tasks s))) as [Hall|Hnot].
  { by exists [], s. }
  apply not_Forall_Exists, Exists_exists in Hnot as (x & Hin & Hx); [|apply _].
  apply list_elem_of_lookup in Hin as [t Ht].
  apply not_true_is_false in Hx.
  destruct (progress f s t x Hwf Ht Hx) as (ev & s1 & Hstep & Hev).
  destruct (IH (work (tasks s1)) (step_work _ _ _ Hstep) s1 eq_refl
              (step_wf _ _ _ Hwf Hstep)) as (rest & s' & Hrun & Hfin & Hrest).
  exists (ev :: rest), s'. split; [|split; [done|by constructor]].
  cbn. by rewrite Hstep.
Qed.

Lemma calls_enabled ts s :
  wf s → NoDup ts → (∀ t, t ∈ ts → tasks s !! t = Some Pending) →
  ∃ s', run (Call <$> ts) s = Some s'.
Proof.
  revert s. induction ts as [|t ts IH]; intros s Hwf Hnd Hp; [by exists s|].
  apply NoDup_cons in Hnd as [Hnotin Hnd].
  destruct (enabled_call s t Hwf) as [s1 H1]; [apply Hp, list_elem_of_here|].
  destruct (IH s1) as [s' H']; [by eapply step_wf|done| |].
  - intros u Hu. destruct (step_tasks _ _ _ H1) as (x & y & _ & -> & _).
    cbn. rewrite list_lookup_insert_ne by (intros ->; done).
    apply Hp. by apply list_elem_of_further.
  - exists s'. rewrite fmap_cons.
    change (run (Call t :: (Call <$> ts)) s)
      with (s1 ← step (Call t) s; run (Call <$> ts) s1).
    by rewrite H1.
Qed.

(** * Calls issued before the fetch ends *)

Lemma issuing_call d s t s' :
  truthy d = false → wf s → issuing d s → step (Call t) s = Some s' →
  issuing d s' ∧ refresh_calls s' = 1.
Proof.
  intros Hd Hwf (Hdata & Hdone & Hfin & Hwk & Hcalls) H. cbn in H.
  destruct (tasks s !! t) as [[| | |]|] eqn:Ht; try done.
  pose proof (lookup_lt_Some _ _ _ Ht) as Hlt.
  unfold ensure_data_enter in H. rewrite Hdata, Hd in H.
  destruct (_first_fetch_lock _) as [l|] eqn:Hg.
  - destruct (locks s !! l) as [lk|] eqn:Hlk; [|done]. cbn in H.
    pose proof (lookup_lt_Some _ _ _ Hlk) as Hllt.
    destruct (can_acquire lk) eqn:Hacq.
    { apply can_acquire_inv in Hacq.
      pose proof (gate_locked _ _ _ Hwf Hg Hlk). by subst lk. }
    injection H as <-.
    destruct Hcalls as [[_ Hg']|[Hc Hg']]; [unfold gate in Hg'; congruence|].
    split; [|done]. unfold issuing, none_finished, none_woken, gate; cbn.
    split; [done|]. split; [done|]. split; [|split].
    + intros u r. insert_cases u t; [done|apply Hfin].
    + intros l' lk' u. destruct (decide (l' = l)) as [->|?].
      * rewrite list_lookup_insert_eq by done. intros [= <-]. cbn.
        rewrite elem_of_app, list_elem_of_singleton.
        intros [Hin|[=]]. by eapply Hwk.
      * rewrite list_lookup_insert_ne by done. apply Hwk.
    + right. split; [done|]. congruence.
  - injection H as <-.
    destruct Hcalls as [[Hc _]|[_ Hg']]; [|done].
    split; [|cbn; lia]. unfold issuing, none_finished, none_woken, gate; cbn.
    split; [done|]. split; [done|]. split; [|split].
    + intros u r. insert_cases u t; [done|apply Hfin].
    + intros l' lk' u [Hlk|[_ Hlk]]%lookup_app_Some; [by eapply Hwk|].
      apply list_lookup_singleton_Some in Hlk as [_ <-]. cbn. apply not_elem_of_nil.
    + right. split; [lia|done].
Qed.

Lemma issuing_init d n : issuing d (init d n).
Proof.
  unfold issuing, none_finished, none_woken. cbn. split; [done|]. split; [done|].
  split; [|split; [|left; split; reflexivity]].
  - intros t r [[=] _]%lookup_replicate.
  - intros l lk t Hlk. by rewrite lookup_nil in Hlk.
Qed.

(** * A batch of calls issued at an idle gate *)

Lemma wake_blocked_by_gate s u l s' :
  wf s → tasks s !! u = Some (AwaitLock l) → gate s = Some l →
  step (Wake u) s = Some s' → False.
Proof.
  intros Hwf Hu Hg H. cbn in H. rewrite Hu in H. unfold ensure_data_locked in H.
  destruct (locks s !! l) as [lk|] eqn:Hlk; [|done]. cbn in H.
  destruct (woken u lk) eqn:Hw; [|done]. apply woken_elem in Hw.
  destruct (wf_locks _ Hwf _ _ Hlk) as (_ & _ & Hst).
  rewrite (gate_locked _ _ _ Hwf Hg Hlk) in Hst. destruct Hst as (_ & _ & Hfa).
  rewrite Forall_forall in Hfa. by specialize (Hfa _ Hw).
Qed.

Lemma batch_waits_wake batch s u s' :
  wf s → batch_waits batch s → step (Wake u) s = Some s' → batch_waits batch s'.
Proof.
  intros Hwf Hb H t Ht. specialize (Hb t Ht).
  destruct (wake_frame _ _ _ H) as (Hdash & _).
  destruct (step_tasks _ _ _ H) as (x & y & Hx & Htasks & _). cbn in Hx, Htasks.
  assert (∃ l, x = AwaitLock l) as [l ->].
  { cbn in H. rewrite Hx in H. destruct x; try done. eauto. }
  destruct (decide (t = u)) as [->|Hne].
  - exfalso. rewrite Hx in Hb. by eapply wake_blocked_by_gate.
  - rewrite Htasks, list_lookup_insert_ne by done. unfold gate in *.
    by rewrite Hdash.
Qed.

Lemma batch_issuing_step s0 batch ev s s' :
  truthy (data (dashboard s0)) = false → wf s →
  batch_issuing s0 batch s → issuing_event batch ev → step ev s = Some s' →
  batch_issuing s0 batch s'.
Proof.
  intros Hd Hwf (Hdata & Hdone & Hb & Hcalls) Hev H.
  destruct ev as [t|t f|u]; [|done|].
  - cbn in H. destruct (tasks s !! t) as [[| | |]|] eqn:Ht; try done.
    pose proof (lookup_lt_Some _ _ _ Ht) as Hlt.
    unfold ensure_data_enter in H. rewrite Hdata, Hd in H.
    destruct (_first_fetch_lock _) as [l|] eqn:Hg.
    + destruct (locks s !! l) as [lk|] eqn:Hlk; [|done]. cbn in H.
      destruct (can_acquire lk) eqn:Hacq.
      { apply can_acquire_inv in Hacq.
        pose proof (gate_locked _ _ _ Hwf Hg Hlk). by subst lk. }
      injection H as <-.
      destruct Hcalls as [[_ Hg']|[Hc Hg']]; [unfold gate in Hg'; congruence|].
      split; [done|]. split; [done|]. split; [|by right].
      intros u Hu. specialize (Hb u Hu). cbn.
      destruct (decide (u = t)) as [->|?].
      * by rewrite list_lookup_insert_eq.
      * by rewrite list_lookup_insert_ne.
    + injection H as <-.
      destruct Hcalls as [[Hc _]|[_ Hg']]; [|done].
      split; [done|]. split; [done|]. split; [|right; split; [cbn; lia|done]].
      intros u Hu. specialize (Hb u Hu). cbn.
      destruct (decide (u = t)) as [->|?].
      * by rewrite list_lookup_insert_eq.
      * rewrite list_lookup_insert_ne by done.
        destruct (tasks s !! u) as [[|l| |]|]; try done.
        unfold gate in Hb. congruence.
  - destruct (wake_frame _ _ _ H) as (Hdash & _ & Hc & Hf).
    split; [by rewrite Hdash|]. split; [congruence|].
    split; [by eapply batch_waits_wake|].
    unfold gate in *. rewrite Hdash, Hc. done.
Qed.

Lemma batch_issuing_run s0 batch sched s s' :
  truthy (data (dashboard s0)) = false → wf s →
  batch_issuing s0 batch s → Forall (issuing_event batch) sched →
  run sched s = Some s' → batch_issuing s0 batch s'.
Proof.
  intros Hd Hwf Hb Hall. revert s Hwf Hb.
  induction Hall as [|ev sched Hev _ IH]; intros s Hwf Hb H.
  - by injection H as <-.
  - apply run_cons_inv in H as (s1 & H1 & H).
    eapply IH; [by eapply step_wf|by eapply batch_issuing_step|done].
Qed.

Lemma batch_issuing_start s0 batch :
  gate s0 = None → (∀ t, t ∈ batch → tasks s0 !! t = Some Pending) →
  batch_issuing s0 batch s0.
Proof.
  intros Hg Hp. repeat (split; [done|]). split; [|by left].
  intros t Ht. by rewrite (Hp t Ht).
Qed.

Lemma run_event_started ev sched s s' :
  ev ∈ sched → run sched s = Some s' →
  tasks s' !! event_task ev ≠ Some Pending.
Proof.
  revert s. induction sched as [|ev' sched IH]; intros s Hin H;
    [by apply elem_of_nil in Hin|].
  apply run_cons_inv in H as (s1 & H1 & H).
  apply elem_of_cons in Hin as [->|Hin]; [|by eapply IH].
  eapply run_not_pending; [done|]. by eapply step_started.
Qed.

Lemma batch_issued_step s0 batch ev s s' :
  wf s → batch_issued s0 batch s → not_call ev → step ev s = Some s' →
  batch_issued s0 batch s'.
Proof.
  intros Hwf (Hc & Hp & Hle & Hb) Hev H.
  pose proof (step_counters _ _ _ H) as Hcnt.
  destruct ev as [t|t f|u]; [done| |]; cbn in Hcnt; destruct Hcnt as [Hc' Hd'].
  - split; [lia|]. split; [|split; [lia|lia]].
    intros u Hu. eapply step_not_pending; [done|by apply Hp].
  - split; [lia|]. split; [|split; [lia|]].
    + intros t Ht. eapply step_not_pending; [done|by apply Hp].
    + intros Hd. eapply batch_waits_wake; [done| |done]. apply Hb. lia.
Qed.

Lemma batch_issued_run s0 batch sched s s' :
  wf s → batch_issued s0 batch s → Forall not_call sched →
  run sched s = Some s' → batch_issued s0 batch s'.
Proof.
  intros Hwf Hb Hall. revert s Hwf Hb.
  induction Hall as [|ev sched Hev _ IH]; intros s Hwf Hb H.
  - by injection H as <-.
  - apply run_cons_inv in H as (s1 & H1 & H).
    eapply IH; [by eapply step_wf|by eapply batch_issued_step|done].
Qed.

Lemma idle_gate_in_flight s : wf s → gate s = None → in_flight s = 0.
Proof. intros Hwf Hg. apply count_refreshing_none. by apply no_fetcher. Qed.

Lemma batch_issued_returned s0 batch s t r :
  wf s0 → gate s0 = None → wf s → batch_issued s0 batch s →
  t ∈ batch → tasks s !! t = Some (Finished r) →
  refresh_done s = S (refresh_done s0).
Proof.
  intros Hwf0 Hg0 Hwf (Hc & _ & Hle & Hb) Ht Hfin.
  pose proof (wf_count _ Hwf) as Hcount. pose proof (wf_count _ Hwf0) as Hcount0.
  rewrite (idle_gate_in_flight _ Hwf0 Hg0) in Hcount0.
  destruct (decide (refresh_done s = refresh_done s0)) as [Hd|Hd]; [|lia].
  specialize (Hb Hd t Ht). by rewrite Hfin in Hb.
Qed.

(** While a call is in its middle, the event loop can take a turn that
    starts no call. *)
Lemma progress_started f s t x :
  wf s → tasks s !! t = Some x → settled x = false →
  ∃ ev s', step ev s = Some s' ∧ fetches_end_with f ev ∧ not_call ev.
Proof.
  intros Hwf Ht Hx. destruct x as [|l|l|r]; [done| | |done].
  - destruct (lookup_lt_is_Some_2 (locks s) l) as [lk Hlk];
      [by eapply wf_wait|].
    destruct (wf_locks _ Hwf _ _ Hlk) as (Hnd & Hmem & Hst).
    destruct (_locked lk).
    + destruct Hst as (_ & [th Hth] & _).
      destruct (enabled_refresh_done _ _ _ f Hwf Hth) as [s' H].
      by exists (RefreshDone th f), s'.
    + destruct Hst as [_ Hhead].
      assert (t ∈ (_waiters lk).*1) as Hin by by apply Hmem.
      destruct (_waiters lk) as [|[u b] ws] eqn:Hws; [by apply elem_of_nil in Hin|].
      cbn in Hhead. subst b.
      assert (tasks s !! u = Some (AwaitLock l)) as Hu.
      { apply Hmem. cbn. apply list_elem_of_here. }
      destruct (enabled_wake s u l lk Hwf Hu Hlk) as [s' H].
      { unfold woken. apply bool_decide_eq_true. rewrite Hws. apply list_elem_of_here. }
      by exists (Wake u), s'.
  - destruct (enabled_refresh_done _ _ _ f Hwf Ht) as [s' H].
    by exists (RefreshDone t f), s'.
Qed.

(** The calls that have started can be run to their end without starting
    another call. *)
Lemma completes_started f s :
  wf s →
  ∃ rest s', run rest s = Some s' ∧
             Forall (fun x => settled x = true) (tasks s') ∧
             Forall (fetches_end_with f) rest ∧ Forall not_call rest.
Proof.
  remember (work (tasks s)) as k eqn:Hk. revert s Hk.
  induction k as [k IH] using lt_wf_ind. intros s -> Hwf.
  destruct (decide (Forall (fun x => settled x = true) (tasks s))) as [Hall|Hnot].
  { by exists [], s. }
  apply not_Forall_Exists, Exists_exists in Hnot as (x & Hin & Hx); [|apply _].
  apply list_elem_of_lookup in Hin as [t Ht].
  apply not_true_is_false in Hx.
  destruct (progress_started f s t x Hwf Ht Hx) as (ev & s1 & Hstep & Hev & Hnc).
  destruct (IH (work (tasks s1)) (step_work _ _ _ Hstep) s1 eq_refl
              (step_wf _ _ _ Hwf Hstep)) as (rest & s' & Hrun & Hfin & Hrest & Hncs).
  exists (ev :: rest), s'. split; [|split; [done|split; by constructor]].
  cbn. by rewrite Hstep.
Qed.

Lemma prefix_app_cases {A} (p a b : list A) :
  p `prefix_of` a ++ b →
  p `prefix_of` a ∨ ∃ k, p = a ++ k ∧ k `prefix_of` b.
Proof.
  intros [k Hk]. apply app_eq_app in Hk as [l [[-> ->]|[-> ->]]].
  - left. by exists l.
  - right. exists l. split; [done|]. by exists k.
Qed.

(** * Calls on a populated coordinator *)

Lemma populated_call s t :
  truthy (data (dashboard s)) = true → tasks s !! t = Some Pending →
  step (Call t) s = Some (set_task t (Finished (Ret tt)) s).
Proof. intros Hd Ht. cbn. rewrite Ht. unfold ensure_data_enter. by rewrite Hd. Qed.

Lemma populated_calls ts s :
  truthy (data (dashboard s)) = true → NoDup ts →
  (∀ t, t ∈ ts → tasks s !! t = Some Pending) →
  ∃ s', run (Call <$> ts) s = Some s' ∧
        dashboard s' = dashboard s ∧ locks s' = locks s ∧
        refresh_calls s' = refresh_calls s ∧ refresh_done s' = refresh_done s ∧
        in_flight s' = in_flight s ∧
        (∀ t, t ∈ ts → tasks s' !! t = Some (Finished (Ret tt))) ∧
        (∀ t, t ∉ ts → tasks s' !! t = tasks s !! t).
Proof.
  intros Hd. revert s Hd. induction ts as [|t ts IH]; intros s Hd Hnd Hp.
  { exists s. repeat (split; [done|]). split; [|done].
    intros t Ht. by apply elem_of_nil in Ht. }
  apply NoDup_cons in Hnd as [Hnotin Hnd].
  assert (tasks s !! t = Some Pending) as Ht by apply Hp, list_elem_of_here.
  pose proof (lookup_lt_Some _ _ _ Ht) as Hlt.
  destruct (IH (set_task t (Finished (Ret tt)) s)) as
    (s' & Hrun & Hdash & Hlocks & Hcalls & Hdone & Hfl & Hfin & Hrest); [done|done| |].
  { intros u Hu. cbn. rewrite list_lookup_insert_ne by (intros ->; done).
    apply Hp. by apply list_elem_of_further. }
  exists s'. split.
  { rewrite fmap_cons.
    change (run (Call t :: (Call <$> ts)) s)
      with (s1 ← step (Call t) s; run (Call <$> ts) s1).
    by rewrite (populated_call s t Hd Ht). }
  repeat (split; [done|]). split; [|split].
  - rewrite Hfl. unfold in_flight. cbn.
    pose proof (count_refreshing_insert _ _ _ (Finished (Ret tt)) Ht) as Hc.
    cbn in Hc. lia.
  - intros u [->|Hu]%elem_of_cons; [|by apply Hfin].
    rewrite (Hrest _ Hnotin). cbn. by apply list_lookup_insert_eq.
  - intros u Hu. apply not_elem_of_cons in Hu as [Hne Hu].
    rewrite (Hrest _ Hu). cbn. by apply list_lookup_insert_ne.
Qed.

(** * Properties of [ensure_data] *)

(** C1. At most one refresh started by [ensure_data] is in flight in every
    reachable state. Take any reachable state [s0] without data whose gate
    is idle, hence with no refresh in flight, and any non-empty batch of
    tasks that have not called yet: the first calls ever, or the calls
    that retry after a fetch that failed or fetched nothing. The calls of
    the batch are issued in any order, possibly while calls that waited
    for an earlier fetch resume, before the fetch ends; no other call
    starts afterwards. Then at every point of the run the refresh has been
    called at most once more than in [s0], and exactly once more from the
    moment all calls of the batch are issued; at most one refresh is in
    flight; a call of the batch that has returned has seen the end of that
    one refresh; and whatever the outcome of the fetch, the run can be
    continued, without any other call, until all calls of the batch have
    returned, with that one refresh called and ended. *)
Theorem ensure_data_coalesces :
  (∀ d n sched s, run sched (init d n) = Some s →
     in_flight s ≤ 1 ∧ refresh_calls s = refresh_done s + in_flight s) ∧
  ∀ d n sched0 s0 batch,
    run sched0 (init d n) = Some s0 →
    gate s0 = None →
    truthy (data (dashboard s0)) = false →
    batch ≠ [] → NoDup batch →
    (∀ t, t ∈ batch → tasks s0 !! t = Some Pending) →
    in_flight s0 = 0 ∧
    (∀ issue rest p s,
       Forall (issuing_event batch) issue →
       (∀ t, t ∈ batch → Call t ∈ issue) →
       Forall not_call rest →
       p `prefix_of` issue ++ rest →
       run p s0 = Some s →
       refresh_calls s ≤ S (refresh_calls s0) ∧
       in_flight s ≤ 1 ∧
       (length issue ≤ length p → refresh_calls s = S (refresh_calls s0)) ∧
       (∀ t r, t ∈ batch → tasks s !! t = Some (Finished r) →
               refresh_done s = S (refresh_done s0))) ∧
    (∀ f, ∃ rest s,
       run ((Call <$> batch) ++ rest) s0 = Some s ∧
       Forall (fetches_end_with f) rest ∧ Forall not_call rest ∧
       refresh_calls s = S (refresh_calls s0) ∧
       refresh_done s = S (refresh_done s0) ∧
       ∀ t, t ∈ batch → tasks s !! t = Some (Finished (Ret tt))).
Proof.
  split.
  { intros d n sched s H. pose proof (run_wf _ _ _ (init_wf d n) H) as Hwf.
    split; [|apply Hwf]. apply count_refreshing_unique, Hwf. }
  intros d n sched0 s0 batch Hrun0 Hg0 Hd Hne Hnd Hp.
  pose proof (run_wf _ _ _ (init_wf d n) Hrun0) as Hwf0.
  pose proof (batch_issuing_start s0 batch Hg0 Hp) as Hstart.
  assert (∀ issue s1,
            Forall (issuing_event batch) issue →
            (∀ t, t ∈ batch → Call t ∈ issue) →
            run issue s0 = Some s1 → wf s1 ∧ batch_issued s0 batch s1) as Hphase.
  { intros issue s1 Hiss Hall H1.
    pose proof (run_wf _ _ _ Hwf0 H1) as Hwf1. split; [done|].
    destruct (batch_issuing_run _ _ _ _ _ Hd Hwf0 Hstart Hiss H1)
      as (_ & Hdone & Hb & Hcalls).
    assert (∀ t, t ∈ batch → tasks s1 !! t ≠ Some Pending) as Hstarted.
    { intros t Ht. apply (run_event_started (Call t) _ _ _ (Hall t Ht) H1). }
    split; [|split; [done|split; [lia|done]]].
    destruct Hcalls as [[_ Hg1]|[Hc _]]; [|done]. exfalso.
    destruct batch as [|t batch]; [done|].
    assert (t ∈ t :: batch) as Ht by apply list_elem_of_here.
    specialize (Hb t Ht). specialize (Hstarted t Ht).
    destruct (tasks s1 !! t) as [[|l|l|r]|] eqn:E; try done.
    - congruence.
    - destruct (wf_fetch _ Hwf1 _ _ E) as [Hg' _]. congruence.
    - pose proof (lookup_lt_Some _ _ _ (Hp t Ht)) as Hlt.
      destruct (run_length _ _ _ H1) as [Hlen _].
      apply lookup_ge_None in E. lia. }
  split; [by apply idle_gate_in_flight|]. split.
  - intros issue rest p s Hiss Hall Hrest Hpre Hrun.
    pose proof (run_wf _ _ _ Hwf0 Hrun) as Hwf.
    assert (in_flight s ≤ 1) as Hfl by apply count_refreshing_unique, Hwf.
    apply prefix_app_cases in Hpre as [[k Hk]|(k & -> & [k' Hk'])].
    + assert (Forall (issuing_event batch) p) as Hp'.
      { rewrite Hk in Hiss. by apply Forall_app in Hiss as [? _]. }
      destruct (batch_issuing_run _ _ _ _ _ Hd Hwf0 Hstart Hp' Hrun)
        as (_ & Hdone & Hb & Hcalls).
      split; [destruct Hcalls as [[? _]|[? _]]; lia|]. split; [done|]. split.
      * intros Hlen. rewrite Hk, length_app in Hlen.
        assert (k = []) as -> by (destruct k; [done|cbn in Hlen; lia]).
        rewrite app_nil_r in Hk. subst p.
        by destruct (Hphase _ _ Hiss Hall Hrun) as [_ [? _]].
      * intros t r Ht Hfin. specialize (Hb t Ht). by rewrite Hfin in Hb.
    + apply run_app_inv in Hrun as (s1 & H1 & Hrun).
      destruct (Hphase _ _ Hiss Hall H1) as [Hwf1 Hq1].
      assert (Forall not_call k) as Hk.
      { rewrite Hk' in Hrest. by apply Forall_app in Hrest as [? _]. }
      pose proof (batch_issued_run _ _ _ _ _ Hwf1 Hq1 Hk Hrun) as Hq.
      split; [destruct Hq as [-> _]; lia|]. split; [done|].
      split; [intros _; apply Hq|].
      intros t r Ht Hfin. by eapply batch_issued_returned.
  - intros f.
    destruct (calls_enabled batch s0 Hwf0 Hnd Hp) as [s1 H1].
    assert (Forall (issuing_event batch) (Call <$> batch)) as Hiss.
    { apply Forall_fmap, Forall_forall. by intros t Ht. }
    assert (∀ t, t ∈ batch → Call t ∈ Call <$> batch) as Hall.
    { intros t Ht. by apply list_elem_of_fmap_2. }
    destruct (Hphase _ _ Hiss Hall H1) as [Hwf1 Hq1].
    destruct (completes_started f s1 Hwf1) as (rest & s & Hrun & Hset & Hf & Hnc).
    pose proof (run_wf _ _ _ Hwf1 Hrun) as Hwf.
    pose proof (batch_issued_run _ _ _ _ _ Hwf1 Hq1 Hnc Hrun) as Hq.
    assert (∀ t, t ∈ batch → tasks s !! t = Some (Finished (Ret tt))) as Hret.
    { intros t Ht. destruct Hq as (_ & Hstarted & _). specialize (Hstarted t Ht).
      pose proof (lookup_lt_Some _ _ _ (Hp t Ht)) as Hlt.
      destruct (run_length _ _ _ H1) as [Hl1 _].
      destruct (run_length _ _ _ Hrun) as [Hl _].
      destruct (lookup_lt_is_Some_2 (tasks s) t) as [x Hx]; [lia|].
      rewrite Forall_forall in Hset.
      pose proof (Hset x (list_elem_of_lookup_2 _ _ _ Hx)) as Hs.
      destruct x as [| | |r]; try done.
      by rewrite (wf_ret _ Hwf _ _ Hx) in Hx. }
    exists rest, s. rewrite run_app, H1. cbn.
    split; [done|]. split; [done|]. split; [done|]. split; [apply Hq|].
    split; [|done].
    destruct batch as [|t batch]; [done|].
    eapply (batch_issued_returned s0 (t :: batch) s t); try done.
    + apply list_elem_of_here.
    + apply Hret, list_elem_of_here.
Qed.

Lemma ensure_data_coalesces_witness :
  run [Call 0; RefreshDone 0 (Raise FetchError)] (init None 3) = Some failed_once ∧
  ∃ s, run [Call 2; Call 1; RefreshDone 2 (Ret [devA; devB]); Wake 1] failed_once
       = Some s ∧
       refresh_calls s = 2 ∧ refresh_done s = 2.
Proof.
  split; [reflexivity|].
  destruct ensure_data_coalesces as [_ H].
  destruct (H None 3 [Call 0; RefreshDone 0 (Raise FetchError)] failed_once [2; 1]
              eq_refl eq_refl eq_refl) as (_ & Hsafe & _).
  { done. }
  { apply NoDup_cons. split; [by intros ?%list_elem_of_singleton|apply NoDup_singleton]. }
  { intros t [->|[->|?%elem_of_nil]%elem_of_cons]%elem_of_cons; done. }
  eexists. split; [reflexivity|].
  match goal with |- refresh_calls ?s = _ ∧ _ =>
    destruct (Hsafe [Call 2; Call 1] [RefreshDone 2 (Ret [devA; devB]); Wake 1]
                [Call 2; Call 1; RefreshDone 2 (Ret [devA; devB]); Wake 1] s)
      as (_ & _ & Hone & Hret)
  end.
  - repeat constructor.
  - intros t [->|[->|?%elem_of_nil]%elem_of_cons]%elem_of_cons; [| |done].
    + apply list_elem_of_here.
    + apply list_elem_of_further, list_elem_of_here.
  - repeat constructor.
  - reflexivity.
  - reflexivity.
  - split.
    + apply Hone. cbn. lia.
    + apply (Hret 1 (Ret tt)); [|reflexivity].
      apply list_elem_of_further, list_elem_of_here.
Defined.

(** C2 as stated fails: after a successful refresh that fetched no device
    a snapshot exists, and the next call of [ensure_data] does not return at
    once but takes the gate and calls the refresh a second time. *)
Lemma ensure_data_refetches_on_empty_snapshot :
  run [Call 0; RefreshDone 0 (Ret [])] (init None 2) = Some published_empty ∧
  is_Some (data (dashboard published_empty)) ∧
  ∃ s', step (Call 1) published_empty = Some s' ∧
        tasks s' !! 1 = Some (AwaitRefresh 1) ∧
        refresh_calls s' = 2 ∧ in_flight s' = 1.
Proof.
  split; [reflexivity|]. split; [by eexists|].
  eexists. split; [reflexivity|]. done.
Qed.

(** C2, amended. In every state whose snapshot is not empty, a call of
    [ensure_data] returns at once and changes nothing but its own task;
    any number of calls issued one after the other all return, and the
    coordinator, the locks, the number of refreshes called and ended and
    the number in flight are what they were. *)
Theorem ensure_data_noop_when_populated :
  ∀ s, truthy (data (dashboard s)) = true →
    (∀ t, tasks s !! t = Some Pending →
       step (Call t) s = Some (set_task t (Finished (Ret tt)) s)) ∧
    (∀ ts, NoDup ts → (∀ t, t ∈ ts → tasks s !! t = Some Pending) →
       ∃ s', run (Call <$> ts) s = Some s' ∧
             dashboard s' = dashboard s ∧ locks s' = locks s ∧
             refresh_calls s' = refresh_calls s ∧
             refresh_done s' = refresh_done s ∧
             in_flight s' = in_flight s ∧
             ∀ t, t ∈ ts → tasks s' !! t = Some (Finished (Ret tt))).
Proof.
  intros s Hd. split; [intros t; by apply populated_call|].
  intros ts Hnd Hp.
  destruct (populated_calls ts s Hd Hnd Hp)
    as (s' & Hrun & Hdash & Hlocks & Hcalls & Hdone & Hfl & Hfin & Hrest).
  exists s'. by repeat (split; [done|]).
Qed.

Lemma ensure_data_noop_when_populated_witness :
  run [Call 0; RefreshDone 0 (Ret [devA; devB])] (init None 3) = Some populated_idle ∧
  ∃ s', run [Call 2; Call 1] populated_idle = Some s' ∧
        refresh_calls s' = 1 ∧
        tasks s' !! 1 = Some (Finished (Ret tt)).
Proof.
  split; [reflexivity|].
  destruct (ensure_data_noop_when_populated populated_idle) as [_ H].
  { vm_compute. reflexivity. }
  destruct (H [2; 1]) as (s' & Hrun & _ & _ & Hcalls & _ & _ & Hfin).
  { apply NoDup_cons. split; [by intros ?%list_elem_of_singleton|apply NoDup_singleton]. }
  { intros t [->|[->|?%elem_of_nil]%elem_of_cons]%elem_of_cons; done. }
  exists s'. split; [exact Hrun|]. split; [exact Hcalls|].
  apply Hfin. apply list_elem_of_further, list_elem_of_here.
Defined.

(** C3. In every reachable state, when the fetch of the task that holds
    the gate fails, that call returns, the snapshot is what it was (still
    without data), the gate is idle again and no refresh is in flight; the
    next call of [ensure_data], made at once or after some of the waiting
    calls have resumed, takes the gate with a new lock and calls the refresh
    again. *)
Theorem ensure_data_retries_after_failure :
  ∀ d n sched s t l e,
    run sched (init d n) = Some s →
    tasks s !! t = Some (AwaitRefresh l) →
    ∃ s', step (RefreshDone t (Raise e)) s = Some s' ∧
          gate s' = None ∧ in_flight s' = 0 ∧
          data (dashboard s') = data (dashboard s) ∧
          truthy (data (dashboard s')) = false ∧
          tasks s' !! t = Some (Finished (Ret tt)) ∧
          ∀ mid s2 u,
            Forall is_wake mid → run mid s' = Some s2 →
            tasks s2 !! u = Some Pending →
            ∃ s3, step (Call u) s2 = Some s3 ∧
                  tasks s3 !! u = Some (AwaitRefresh (length (locks s2))) ∧
                  gate s3 = Some (length (locks s2)) ∧
                  refresh_calls s3 = S (refresh_calls s') ∧
                  in_flight s3 = 1.
Proof.
  intros d n sched s t l e Hrun Ht.
  pose proof (run_wf _ _ _ (init_wf d n) Hrun) as Hwf.
  destruct (wf_fetch _ Hwf _ _ Ht) as [Hg Hd].
  destruct (lookup_lt_is_Some_2 (locks s) l) as [lk Hlk]; [by apply wf_gate|].
  pose proof (gate_locked _ _ _ Hwf Hg Hlk) as Hlocked.
  pose proof (lookup_lt_Some _ _ _ Ht) as Hlt.
  eexists. split.
  { cbn. rewrite Ht. unfold ensure_data_refreshed. rewrite Hlk. cbn.
    unfold release. rewrite Hlocked. reflexivity. }
  match goal with |- gate ?x = _ ∧ _ => set (s' := x) end.
  assert (step (RefreshDone t (Raise e)) s = Some s') as Hstep.
  { cbn. rewrite Ht. unfold ensure_data_refreshed. rewrite Hlk. cbn.
    unfold release. rewrite Hlocked. reflexivity. }
  pose proof (step_wf _ _ _ Hwf Hstep) as Hwf'.
  assert (in_flight s' = 0) as Hfl.
  { apply count_refreshing_none. intros u l' Hu.
    destruct (wf_fetch _ Hwf' _ _ Hu) as [Hg' _]. done. }
  split; [done|]. split; [done|]. split; [done|]. split; [done|]. split.
  { cbn. by rewrite list_lookup_insert_eq. }
  intros mid s2 u Hmid Hrun2 Hu.
  destruct (wakes_frame _ _ _ Hmid Hrun2) as (Hdash & Hlen & Hcalls & Hdone).
  pose proof (run_wf _ _ _ Hwf' Hrun2) as Hwf2.
  pose proof (lookup_lt_Some _ _ _ Hu) as Hult.
  assert (step (Call u) s2 =
          Some {| dashboard := set_first_fetch_lock (Some (length (locks s2))) (dashboard s2);
                  locks := locks s2 ++ [take new_lock];
                  tasks := <[u := AwaitRefresh (length (locks s2))]> (tasks s2);
                  refresh_calls := S (refresh_calls s2);
                  refresh_done := refresh_done s2 |}) as Hcall.
  { cbn. rewrite Hu. unfold ensure_data_enter. rewrite Hdash. cbn. by rewrite Hd. }
  eexists. split; [exact Hcall|].
  pose proof (step_wf _ _ _ Hwf2 Hcall) as Hwf3.
  split; [cbn; by rewrite list_lookup_insert_eq|]. split; [done|].
  split; [cbn; by rewrite Hcalls|].
  pose proof (wf_count _ Hwf3) as Hc3. pose proof (wf_count _ Hwf2) as Hc2.
  pose proof (wf_count _ Hwf') as Hc'. rewrite Hfl in Hc'.
  cbn [refresh_calls refresh_done] in Hc3. lia.
Qed.

Lemma ensure_data_retries_after_failure_witness :
  ∃ s s' s3,
    run [Call 0] (init None 2) = Some s ∧
    step (RefreshDone 0 (Raise FetchError)) s = Some s' ∧
    gate s' = None ∧
    step (Call 1) s' = Some s3 ∧ in_flight s3 = 1.
Proof.
  destruct (ensure_data_retries_after_failure None 2 [Call 0] _ 0 0 FetchError
              eq_refl eq_refl) as (s' & Hstep & Hg & _ & _ & _ & _ & Hretry).
  destruct (Hretry [] s' 1 (Forall_nil_2 _) eq_refl) as (s3 & Hcall & _ & _ & _ & Hfl).
  { vm_compute in Hstep. injection Hstep as <-. reflexivity. }
  eexists _, s', s3. split; [reflexivity|]. done.
Defined.

(** C6. No call of [ensure_data] ends with an exception, whatever the
    fetch does: in every reachable state every finished call has returned
    normally; the call that awaits its refresh returns as soon as the fetch
    ends, with any outcome, and a failed fetch only leaves the snapshot as
    it was; while a call is unfinished the event loop can take a turn; a
    run of [n] calls has at most [2 * n] turns; and every run can be
    continued until all calls have returned. *)
Theorem ensure_data_never_raises :
  ∀ d n sched s,
    run sched (init d n) = Some s →
    (∀ t r, tasks s !! t = Some (Finished r) → r = Ret tt) ∧
    (∀ t l f, tasks s !! t = Some (AwaitRefresh l) →
       ∃ s', step (RefreshDone t f) s = Some s' ∧
             tasks s' !! t = Some (Finished (Ret tt)) ∧
             (∀ e, f = Raise e → data (dashboard s') = data (dashboard s))) ∧
    (∀ f t x, tasks s !! t = Some x → finished x = false →
       ∃ ev s', step ev s = Some s' ∧ fetches_end_with f ev) ∧
    length sched ≤ 2 * n ∧
    (∀ f, ∃ rest s',
       run (sched ++ rest) (init d n) = Some s' ∧
       Forall (fetches_end_with f) rest ∧
       ∀ t, t < n → tasks s' !! t = Some (Finished (Ret tt))).
Proof.
  intros d n sched s Hrun.
  pose proof (run_wf _ _ _ (init_wf d n) Hrun) as Hwf.
  split; [apply Hwf|]. split; [|split; [|split]].
  - intros t l f Ht.
    destruct (enabled_refresh_done _ _ _ f Hwf Ht) as [s' Hstep].
    exists s'. split; [done|].
    pose proof (step_wf _ _ _ Hwf Hstep) as Hwf'.
    destruct (step_tasks _ _ _ Hstep) as (x & y & Hx & Htasks & Hlt).
    cbn [event_task] in *. rewrite Ht in Hx. injection Hx as <-.
    pose proof (lookup_lt_Some _ _ _ Ht) as Hbound.
    assert (tasks s' !! t = Some y) as Hy
      by (rewrite Htasks; by apply list_lookup_insert_eq).
    split.
    + destruct y as [| | |r]; cbn in Hlt; try lia.
      by rewrite (wf_ret _ Hwf' _ _ Hy) in Hy.
    + intros e ->. by eapply step_failed_refresh_data.
  - intros f t x Ht Hx. by eapply progress.
  - destruct (run_length _ _ _ Hrun) as [_ Hlen]. cbn in Hlen.
    rewrite work_replicate_pending in Hlen. lia.
  - intros f. destruct (completes f s Hwf) as (rest & s' & Hrest & Hall & Hf).
    exists rest, s'. rewrite run_app, Hrun. cbn. split; [done|]. split; [done|].
    intros t Ht. destruct (run_length _ _ _ Hrun) as [Hl1 _].
    destruct (run_length _ _ _ Hrest) as [Hl _].
    cbn in Hl1. rewrite length_replicate in Hl1.
    destruct (lookup_lt_is_Some_2 (tasks s') t) as [x Hx]; [lia|].
    rewrite Forall_forall in Hall.
    pose proof (Hall x (list_elem_of_lookup_2 _ _ _ Hx)) as Hfin.
    destruct x as [| | |r]; try done.
    by rewrite (wf_ret _ (run_wf _ _ _ Hwf Hrest) _ _ Hx) in Hx.
Qed.

Lemma ensure_data_never_raises_witness :
  ∃ s, run [Call 0; Call 1; RefreshDone 0 (Raise FetchError)] (init None 2) = Some s ∧
       tasks s !! 0 = Some (Finished (Ret tt)) ∧
       ∀ r, tasks s !! 0 = Some (Finished r) → r = Ret tt.
Proof.
  eexists. split; [reflexivity|]. split; [reflexivity|].
  intros r.
  apply (ensure_data_never_raises None 2
           [Call 0; Call 1; RefreshDone 0 (Raise FetchError)] _ eq_refl).
Defined.

(** * Properties of the refresh, of [get_device] and of the entity *)

(** C4. A successful fetch is turned into the dictionary that maps each
    name to the last device of that name in the fetched list; once the
    dictionary built from the devices ["a"] (version 1.0) and ["b"]
    (version 2.0) is the coordinator's data, [get_device] returns the
    record of ["a"] for an entry named ["a"] and [None] for an entry named
    ["c"]. *)
Theorem update_data_indexes_by_name :
  (∀ devices,
     _async_update_data (Ret devices) = Ret (index_by_name devices) ∧
     ∀ n, index_by_name devices !! n =
          last (filter (fun dev => dev_name dev = n) devices)) ∧
  ∀ self snap,
    _async_update_data (Ret [devA; devB]) = Ret snap →
    data self = Some snap →
    get_device self (entry_named "a") = Ret (Some devA) ∧
    get_device self (entry_named "c") = Ret None.
Proof.
  split.
  - intros devices. split; [done|]. intros n. apply index_by_name_lookup.
  - intros self snap [= <-] Hd. unfold get_device. rewrite Hd.
    split; vm_compute; reflexivity.
Qed.

Lemma update_data_indexes_by_name_witness :
  get_device (dashboard_with (Some (index_by_name [devA; devB]))) (entry_named "a")
  = Ret (Some devA) ∧
  get_device (dashboard_with (Some (index_by_name [devA; devB]))) (entry_named "c")
  = Ret None.
Proof.
  destruct update_data_indexes_by_name as [_ H].
  apply (H (dashboard_with (Some (index_by_name [devA; devB])))
           (index_by_name [devA; devB]) eq_refl eq_refl).
Defined.

(** C5. A refresh whose fetch raises leaves the stored snapshot as it
    was, populated or not: [_async_update_data] passes the exception on,
    the refresh stores nothing and reports the failure through
    [last_update_success] without raising, and the same holds when the
    refresh was started by [ensure_data]. *)
Theorem failed_refresh_keeps_snapshot :
  ∀ (self : ESPHomeDashboard) (e : exn),
    _async_update_data (Raise e) = Raise e ∧
    data (async_request_refresh self (Raise e)).1 = data self ∧
    last_update_success (async_request_refresh self (Raise e)).1 = false ∧
    (async_request_refresh self (Raise e)).2 = Ret tt ∧
    ∀ s t s', dashboard s = self →
      step (RefreshDone t (Raise e)) s = Some s' →
      data (dashboard s') = data self.
Proof.
  intros self e. repeat (split; [done|]).
  intros s t s' <- Hstep. by eapply step_failed_refresh_data.
Qed.

Lemma failed_refresh_keeps_snapshot_witness :
  ∃ s', step (RefreshDone 0 (Raise FetchError)) populated_refreshing = Some s' ∧
        data (dashboard s') = Some (index_by_name [devA; devB]).
Proof.
  eexists. split; [reflexivity|].
  destruct (failed_refresh_keeps_snapshot
              (dashboard populated_refreshing) FetchError) as (_ & _ & _ & _ & H).
  apply (H populated_refreshing 0 _ eq_refl eq_refl).
Defined.

(** C7. With an entry that carries the name [n], [get_device] returns
    what the stored snapshot has under [n]; the result is [None] exactly
    when there is no snapshot or [n] is not one of its keys. The function is
    synchronous: it reads the coordinator, whatever the state of the gate,
    and has no effect on it. *)
Theorem get_device_lookup :
  ∀ (self : ESPHomeDashboard) (entry_data : RuntimeEntryData) info n,
    device_info entry_data = Some info →
    name info = Some n →
    get_device self entry_data = Ret (m ← data self; m !! n) ∧
    (get_device self entry_data = Ret None ↔
     data self = None ∨ ∃ m, data self = Some m ∧ n ∉ dom m).
Proof.
  intros self entry_data info n Hinfo Hname.
  assert (Hget : get_device self entry_data = Ret (m ← data self; m !! n)).
  { unfold get_device. rewrite Hinfo, Hname.
    destruct (data self) as [m|] eqn:Hd; cbn; [|done].
    destruct (Nat.eqb_spec (size m) 0) as [Hs|Hs]; cbn; [|done].
    apply map_size_empty_iff in Hs. subst m. by rewrite lookup_empty. }
  split; [done|]. rewrite Hget.
  destruct (data self) as [m|]; cbn.
  - split.
    + intros [= Hm]. right. exists m. split; [done|]. by apply not_elem_of_dom.
    + intros [|(m' & [= <-] & Hm)]; [done|]. f_equal. by apply not_elem_of_dom.
  - split; [by left|done].
Qed.

Lemma get_device_lookup_witness :
  get_device (dashboard_with (Some (index_by_name [devA; devB]))) (entry_named "a")
  = Ret (Some devA).
Proof.
  destruct (get_device_lookup
              (dashboard_with (Some (index_by_name [devA; devB])))
              (entry_named "a") _ "a" eq_refl eq_refl) as [H _].
  rewrite H. vm_compute. reflexivity.
Defined.

(** C8. When [get_device] returns [None] for the entity's entry, the
    entity is not available, whatever the coordinator entity says, and its
    latest version is [None]. *)
Theorem absent_device_unavailable :
  ∀ (super_available : bool) (self : ESPHomeUpdateEntity),
    get_device (coordinator self) (_entry_data self) = Ret None →
    available super_available self = Ret false ∧
    latest_version self = Ret None.
Proof.
  intros sup self H. unfold available, latest_version. rewrite H.
  by destruct sup.
Qed.

Lemma absent_device_unavailable_witness :
  available true {| _entry_data := entry_named "c";
                    coordinator := dashboard_with (Some (index_by_name [devA; devB])) |}
  = Ret false ∧
  latest_version {| _entry_data := entry_named "c";
                    coordinator := dashboard_with (Some (index_by_name [devA; devB])) |}
  = Ret None.
Proof.
  apply (absent_device_unavailable true
           {| _entry_data := entry_named "c";
              coordinator := dashboard_with (Some (index_by_name [devA; devB])) |}).
  vm_compute. reflexivity.
Defined.

(** C9. A successful fetch of an empty list stores the empty dictionary;
    its truth value is that of [None]; [get_device] then returns [None]
    for every entry, with or without a device identity; and a call of
    [ensure_data] on an idle gate does not return but takes the gate with a
    new lock and calls the refresh. *)
Theorem empty_snapshot_is_no_data :
  (∀ self, async_request_refresh self (Ret []) =
           ({| data := Some ∅; last_update_success := true;
               _first_fetch_lock := _first_fetch_lock self |}, Ret tt)) ∧
  truthy (Some ∅) = truthy None ∧
  (∀ self entry_data,
     data self = Some ∅ → get_device self entry_data = Ret None) ∧
  (∀ s t,
     data (dashboard s) = Some ∅ → gate s = None →
     tasks s !! t = Some Pending →
     ∃ s', step (Call t) s = Some s' ∧
           tasks s' !! t = Some (AwaitRefresh (length (locks s))) ∧
           refresh_calls s' = S (refresh_calls s) ∧
           in_flight s' = S (in_flight s)).
Proof.
  split; [done|]. split; [apply truthy_empty|]. split.
  - intros self e Hd. unfold get_device. by rewrite Hd, truthy_empty.
  - intros s t Hd Hg Ht. eexists. split.
    { cbn. rewrite Ht. unfold ensure_data_enter. rewrite Hd, truthy_empty.
      unfold gate in Hg. rewrite Hg. reflexivity. }
    pose proof (lookup_lt_Some _ _ _ Ht) as Hlt. cbn.
    split; [by apply list_lookup_insert_eq|]. split; [done|].
    unfold in_flight. cbn.
    pose proof (count_refreshing_insert _ _ _ (AwaitRefresh (length (locks s))) Ht) as Hc.
    cbn in Hc. lia.
Qed.

Lemma empty_snapshot_is_no_data_witness :
  get_device (dashboard published_empty) entry_without_info = Ret None ∧
  ∃ s', step (Call 1) published_empty = Some s' ∧
        tasks s' !! 1 = Some (AwaitRefresh 1) ∧ refresh_calls s' = 2.
Proof.
  destruct empty_snapshot_is_no_data as (_ & _ & Hget & Hcall).
  split; [by apply Hget|].
  destruct (Hcall published_empty 1 eq_refl eq_refl eq_refl)
    as (s' & Hstep & Ht & Hc & _).
  exists s'. done.
Defined.

(** C10 as stated fails: with the empty snapshot, which exists, and an
    entry without device information, [get_device] returns [None] and no
    assertion fails. *)
Lemma get_device_empty_snapshot_no_assertion :
  is_Some (data (dashboard_with (Some ∅))) ∧
  missing_identity entry_without_info ∧
  get_device (dashboard_with (Some ∅)) entry_without_info = Ret None.
Proof. split; [by eexists|]. split; [done|]. vm_compute. reflexivity. Qed.

(** C10, amended. When the snapshot is absent or empty, [get_device]
    returns [None] before it looks at the entry. When the snapshot is not
    empty, [get_device] fails an assertion exactly when the entry lacks the
    device information or its name, and returns a result otherwise. *)
Theorem get_device_asserts_identity :
  ∀ self entry_data,
    (truthy (data self) = false → get_device self entry_data = Ret None) ∧
    (truthy (data self) = true →
       (missing_identity entry_data ↔
        get_device self entry_data = Raise AssertionError) ∧
       (missing_identity entry_data ∨
        ∃ r, get_device self entry_data = Ret r)).
Proof.
  intros self e. unfold get_device, missing_identity. split; intros ->; cbn; [done|].
  destruct (device_info e) as [info|]; [|by split; [|left]].
  destruct (name info) as [n|]; [|by split; [|left]].
  split; [|right; destruct (data self); eauto].
  split; [done|]. by destruct (data self).
Qed.

Lemma get_device_asserts_identity_witness :
  get_device (dashboard_with (Some (index_by_name [devA; devB]))) entry_without_info
  = Raise AssertionError.
Proof.
  destruct (get_device_asserts_identity
              (dashboard_with (Some (index_by_name [devA; devB])))
              entry_without_info) as [_ H].
  destruct H as [H _]; [vm_compute; reflexivity|].
  apply H. exact I.
Defined.

(** * More on the dictionary of devices *)

Section Index.

Implicit Types (m : snapshot) (devices : list ConfiguredDevice) (n : string)
  (dev : ConfiguredDevice).

Lemma index_by_name_snoc devices dev :
  index_by_name (devices ++ [dev]) = <[dev_name dev := dev]> (index_by_name devices).
Proof. unfold index_by_name. by rewrite foldl_app. Qed.

Lemma index_by_name_Some devices n dev :
  index_by_name devices !! n = Some dev → dev ∈ devices ∧ dev_name dev = n.
Proof.
  rewrite index_by_name_lookup. intros H.
  assert (dev ∈ filter (fun d => dev_name d = n) devices) as Hin.
  { destruct (filter _ devices) as [|x l] using rev_ind; [done|].
    rewrite last_snoc in H. injection H as ->. apply elem_of_app. right.
    apply list_elem_of_here. }
  apply list_elem_of_filter in Hin. tauto.
Qed.

Lemma index_by_name_is_Some devices n :
  is_Some (index_by_name devices !! n) ↔ n ∈ dev_name <$> devices.
Proof.
  split.
  - intros [dev Hdev]. apply index_by_name_Some in Hdev as [Hin <-].
    by apply list_elem_of_fmap_2.
  - intros (dev & -> & Hin)%list_elem_of_fmap. rewrite index_by_name_lookup.
    assert (dev ∈ filter (fun d => dev_name d = dev_name dev) devices) as Hf
      by by apply list_elem_of_filter.
    destruct (filter _ devices) as [|x l] using rev_ind.
    + by apply elem_of_nil in Hf.
    + rewrite last_snoc. by eexists.
Qed.

(** X1. The keys of the dictionary built by [_async_update_data] are
    exactly the names of the fetched devices, and every record in it is one
    of the fetched devices, stored under its own name. *)
Theorem index_by_name_keys_and_records :
  ∀ devices,
    dom (index_by_name devices) = list_to_set (dev_name <$> devices) ∧
    ∀ n dev, index_by_name devices !! n = Some dev →
             dev ∈ devices ∧ dev_name dev = n.
Proof.
  intros devices. split; [|apply index_by_name_Some].
  apply set_eq. intros n.
  rewrite elem_of_dom, elem_of_list_to_set. apply index_by_name_is_Some.
Qed.

Lemma index_by_name_keys_and_records_witness :
  devA ∈ [devA; devB] ∧ dev_name devA = "a".
Proof.
  destruct (index_by_name_keys_and_records [devA; devB]) as [_ H].
  apply (H "a" devA). vm_compute. reflexivity.
Defined.

Lemma index_by_name_size devices :
  size (index_by_name devices) ≤ length devices.
Proof.
  induction devices as [|dev devices IH] using rev_ind; [done|].
  rewrite index_by_name_snoc, length_app. cbn.
  destruct (index_by_name devices !! dev_name dev) eqn:E.
  - rewrite map_size_insert_Some by done. lia.
  - rewrite map_size_insert_None by done. lia.
Qed.

Lemma index_by_name_size_NoDup devices :
  NoDup (dev_name <$> devices) → size (index_by_name devices) = length devices.
Proof.
  induction devices as [|dev devices IH] using rev_ind; [done|].
  rewrite fmap_app, index_by_name_snoc, length_app. cbn.
  intros [Hnd [Hdis _]]%NoDup_app.
  rewrite map_size_insert_None.
  - rewrite IH by done. lia.
  - apply eq_None_not_Some. rewrite index_by_name_is_Some. intros Hin.
    apply (Hdis _ Hin). apply list_elem_of_here.
Qed.

Lemma index_by_name_size_dup devices :
  size (index_by_name devices) = length devices → NoDup (dev_name <$> devices).
Proof.
  induction devices as [|dev devices IH] using rev_ind; [intros; apply NoDup_nil_2|].
  rewrite fmap_app, index_by_name_snoc, length_app. cbn.
  pose proof (index_by_name_size devices) as Hle.
  destruct (index_by_name devices !! dev_name dev) eqn:E.
  - rewrite map_size_insert_Some by done. lia.
  - rewrite map_size_insert_None by done. intros Hs.
    apply NoDup_app. split; [apply IH; lia|]. split; [|apply NoDup_singleton].
    intros n Hn ->%list_elem_of_singleton.
    apply index_by_name_is_Some in Hn. rewrite E in Hn. by destruct Hn.
Qed.

(** X2. The dictionary has at most as many entries as devices were
    fetched, exactly as many when and only when no two devices share a
    name, and it is true (not empty) exactly when some device was
    fetched. *)
Theorem index_by_name_size_names :
  ∀ devices,
    size (index_by_name devices) ≤ length devices ∧
    (size (index_by_name devices) = length devices ↔
     NoDup (dev_name <$> devices)) ∧
    (truthy (Some (index_by_name devices)) = true ↔ devices ≠ []).
Proof.
  intros devices. split; [apply index_by_name_size|]. split.
  - split; [apply index_by_name_size_dup|apply index_by_name_size_NoDup].
  - unfold truthy. destruct (Nat.eqb_spec (size (index_by_name devices)) 0) as [Hs|Hs].
    + apply map_size_empty_iff in Hs. split; [done|]. intros Hne. exfalso.
      destruct devices as [|dev devices] using rev_ind; [done|].
      rewrite index_by_name_snoc in Hs. by apply insert_non_empty in Hs.
    + split; [|done]. intros _ ->. by apply Hs.
Qed.

(** X3. The dictionary of two lists put one after the other is the
    dictionary of the second list laid over that of the first: on a shared
    name the later device wins. *)
Theorem index_by_name_app :
  ∀ devices1 devices2,
    index_by_name (devices1 ++ devices2) =
    index_by_name devices2 ∪ index_by_name devices1.
Proof.
  intros l1 l2. induction l2 as [|dev l2 IH] using rev_ind.
  - rewrite app_nil_r. unfold index_by_name at 2. cbn. by rewrite (left_id_L ∅ (∪)).
  - rewrite app_assoc, !index_by_name_snoc, IH. by rewrite insert_union_l.
Qed.

Lemma index_by_name_NoDup_lookup devices n dev :
  NoDup (dev_name <$> devices) →
  index_by_name devices !! n = Some dev ↔ dev ∈ devices ∧ dev_name dev = n.
Proof.
  intros Hnd. split; [apply index_by_name_Some|].
  intros [Hin <-]. induction devices as [|x devices IH] using rev_ind.
  { by apply elem_of_nil in Hin. }
  rewrite fmap_app in Hnd. apply NoDup_app in Hnd as (Hnd & Hdis & _).
  rewrite index_by_name_snoc.
  apply elem_of_app in Hin as [Hin| ->%list_elem_of_singleton].
  - rewrite lookup_insert_ne; [by apply IH|].
    intros Heq. apply (Hdis (dev_name dev)).
    + by apply list_elem_of_fmap_2.
    + rewrite <- Heq. apply list_elem_of_here.
  - apply lookup_insert_eq.
Qed.

(** X4. When no two fetched devices share a name, the dictionary does not
    depend on the order in which the devices were returned. *)
Theorem index_by_name_permutation :
  ∀ devices devices',
    NoDup (dev_name <$> devices) → devices ≡ₚ devices' →
    index_by_name devices = index_by_name devices'.
Proof.
  intros l l' Hnd Hperm.
  assert (NoDup (dev_name <$> l')) as Hnd' by by rewrite <- Hperm.
  apply map_eq. intros n. apply option_eq. intros dev.
  rewrite !index_by_name_NoDup_lookup by done. by rewrite Hperm.
Qed.

Lemma index_by_name_permutation_witness :
  index_by_name [devA; devB] = index_by_name [devB; devA].
Proof.
  apply index_by_name_permutation.
  - cbn. apply NoDup_cons. split; [by intros ?%list_elem_of_singleton|apply NoDup_singleton].
  - apply perm_swap.
Defined.

End Index.

(** * More on the entity and on [hass.data] *)

(** X5. When the coordinator entity is available, the entity is
    available exactly when it has a latest version, unavailable exactly
    when the latest version is [None], and [available] fails with an
    exception exactly when [latest_version] does; when the coordinator
    entity is not available, [available] is false and never fails. *)
Theorem available_agrees_with_latest_version :
  ∀ self,
    (available true self = Ret true ↔ ∃ v, latest_version self = Ret (Some v)) ∧
    (available true self = Ret false ↔ latest_version self = Ret None) ∧
    (∀ e, available true self = Raise e ↔ latest_version self = Raise e) ∧
    available false self = Ret false.
Proof.
  intros self. unfold available, latest_version.
  destruct (get_device _ _) as [[dev|]|e0]; repeat split; try done;
    try (intros [v [=]]); try (intros [=]; congruence); eauto.
Qed.

Lemma string_length_app (s t : string) :
  String.length (s +:+ t) = String.length s + String.length t.
Proof.
  induction s as [|a s IH]; [done|].
  change (String.length (String a s +:+ t)) with (S (String.length (s +:+ t))).
  by rewrite IH.
Qed.

Lemma string_app_inj_r (t s1 s2 : string) : s1 +:+ t = s2 +:+ t → s1 = s2.
Proof.
  revert s2. induction s1 as [|a s1 IH]; intros [|b s2] H; [done| | |].
  - apply (f_equal String.length) in H.
    rewrite !string_length_app in H. cbn in H. lia.
  - apply (f_equal String.length) in H.
    rewrite !string_length_app in H. cbn in H. lia.
  - change (String a (s1 +:+ t) = String b (s2 +:+ t)) in H.
    injection H as -> H. f_equal. by apply IH.
Qed.

(** X7. Two entries have the same unique id of the update entity, and
    the same device-update signal, exactly when they have the same entry
    id. *)
Theorem entry_ids_give_distinct_names :
  ∀ e1 e2,
    (update_unique_id e1 = update_unique_id e2 ↔ entry_id e1 = entry_id e2) ∧
    (device_update_signal e1 = device_update_signal e2 ↔
     entry_id e1 = entry_id e2).
Proof.
  intros e1 e2. unfold update_unique_id, device_update_signal. split; split.
  - apply string_app_inj_r.
  - by intros ->.
  - intros H. apply (inj (String.append "esphome_")) in H.
    by apply string_app_inj_r in H.
  - by intros ->.
Qed.

(** X6. [ESPHomeUpdateEntity.__init__] fails its assertion exactly when
    the entry has no device information. An entity it has built has the
    entry id followed by ["_update"] as unique id and the MAC address of
    the device as its only connection; its [installed_version] is the
    version of the device and does not fail; [available] and
    [latest_version] do not fail as long as the device has a name or the
    coordinator has no data. *)
Theorem constructed_entity_properties :
  ∀ entry_data coordinator,
    (device_info entry_data = None ↔
     ESPHomeUpdateEntity_init entry_data coordinator = Raise AssertionError) ∧
    ∀ self attrs,
      ESPHomeUpdateEntity_init entry_data coordinator = Ret (self, attrs) →
      ∃ info,
        device_info entry_data = Some info ∧
        _entry_data self = entry_data ∧
        _attr_unique_id attrs = entry_id entry_data +:+ "_update" ∧
        _attr_device_info attrs = [(CONNECTION_NETWORK_MAC, mac_address info)] ∧
        installed_version self = Ret (Some (esphome_version info)) ∧
        (∀ super_available,
           is_Some (name info) ∨ truthy (data coordinator) = false →
           (∃ a, available super_available self = Ret a) ∧
           (∃ v, latest_version self = Ret v)).
Proof.
  intros e c. unfold ESPHomeUpdateEntity_init. split.
  - destruct (device_info e); split; done.
  - intros self attrs H. destruct (device_info e) as [info|] eqn:Hinfo; [|done].
    injection H as <- <-. exists info. repeat (split; [done|]). split.
    { unfold installed_version. cbn. by rewrite Hinfo. }
    intros sup Hok. unfold available, latest_version, get_device. cbn.
    rewrite Hinfo.
    destruct (truthy (data c)) eqn:Hd; cbn.
    + destruct Hok as [[nm Hnm]|?]; [|done]. rewrite Hnm.
      destruct (data c) as [m|]; [|destruct sup; eauto].
      destruct (m !! nm); destruct sup; eauto.
    + destruct sup; eauto.
Qed.

Lemma constructed_entity_properties_witness :
  ∃ info, device_info (entry_named "a") = Some info ∧
          installed_version {| _entry_data := entry_named "a";
                               coordinator := dashboard_with None |}
          = Ret (Some (esphome_version info)).
Proof.
  destruct (constructed_entity_properties (entry_named "a") (dashboard_with None))
    as [_ H].
  destruct (H _ _ eq_refl) as (info & Hinfo & _ & _ & _ & Hinst & _).
  by exists info.
Defined.

Section HassLemmas.

Context {Session Other : Type}.
Variable async_get_clientsession :
  HomeAssistant Session Other → Session * HomeAssistant Session Other.
Implicit Types (hass : HomeAssistant Session Other).

(** X8. After [async_set_dashboard_info], [async_get_dashboard] returns a
    dashboard with the given add-on slug, the URL ["http://host:port"] and
    the session that [async_get_clientsession] returned; it has no data and
    an idle gate, so [get_device] returns [None] for every entry. Every
    other key of [hass.data] is as [async_get_clientsession] left it, and
    whatever was stored under the dashboard's key before is replaced. *)
Theorem dashboard_info_round_trip :
  ∀ hass addon host port,
    let session := (async_get_clientsession hass).1 in
    let hass1 := (async_get_clientsession hass).2 in
    let hass' := async_set_dashboard_info async_get_clientsession hass addon host port in
    (∃ d, async_get_dashboard hass' = Some (DashboardValue d) ∧
          addon_slug d = addon ∧
          api_url (api d) = "http://" +:+ host +:+ ":" +:+ pretty port ∧
          api_session (api d) = session ∧
          data (attributes d) = None ∧
          _first_fetch_lock (attributes d) = None ∧
          (∀ entry_data, get_device (attributes d) entry_data = Ret None) ∧
          hass_data hass' =
            <[KEY_DASHBOARD := DashboardValue d]>
              (delete KEY_DASHBOARD (hass_data hass1))) ∧
    (∀ key, key ≠ KEY_DASHBOARD → hass_data hass' !! key = hass_data hass1 !! key).
Proof.
  intros hass addon host port session hass1 hass'.
  unfold hass', session, hass1, async_set_dashboard_info, async_get_dashboard.
  destruct (async_get_clientsession hass) as [sess h1]. cbn. split.
  - eexists. split; [apply lookup_insert_eq|]. repeat (split; [done|]).
    by rewrite insert_delete_eq.
  - intros key Hne. by apply lookup_insert_ne.
Qed.

End HassLemmas.

Lemma dashboard_info_round_trip_witness :
  hass_data (async_set_dashboard_info storing_clientsession
               {| hass_data := ∅ |} "addon" "localhost" 6052)
    !! "aiohttp_clientsession"
  = Some (OtherValue 7).
Proof.
  destruct (dashboard_info_round_trip storing_clientsession
              {| hass_data := ∅ |} "addon" "localhost" 6052) as [_ H].
  rewrite H; [|done]. reflexivity.
Defined.

(** * More on the gate *)

Lemma count_refreshing_pos ts t l :
  ts !! t = Some (AwaitRefresh l) → 1 ≤ count_refreshing ts.
Proof.
  revert t. induction ts as [|x ts IH]; intros [|t] H; try done.
  - injection H as ->. cbn. lia.
  - cbn in H. specialize (IH t H). cbn [count_refreshing]. lia.
Qed.

Lemma count_refreshing_pos_inv ts :
  1 ≤ count_refreshing ts → ∃ t l, ts !! t = Some (AwaitRefresh l).
Proof.
  induction ts as [|x ts IH]; cbn [count_refreshing]; [lia|].
  destruct (refreshing x) eqn:Hx.
  - destruct x as [| |l|]; try done. intros _. by exists 0, l.
  - cbn. intros H. destruct (IH H) as (t & l & Ht). by exists (S t), l.
Qed.

Lemma step_locks ev s s' :
  step ev s = Some s' →
  length (locks s') + refresh_calls s = length (locks s) + refresh_calls s'.
Proof.
  intros H.
  unfold step, ensure_data_enter, ensure_data_locked, ensure_data_refreshed,
    async_request_refresh in H.
  destruct ev as [t|t f|t]; repeat (case_match; simplify_option_eq);
    cbn; rewrite ?length_insert, ?length_app; cbn; lia.
Qed.

Lemma run_locks sched s s' :
  run sched s = Some s' →
  length (locks s') + refresh_calls s = length (locks s) + refresh_calls s'.
Proof.
  revert s. induction sched as [|ev sched IH]; intros s H.
  - by injection H as <-.
  - apply run_cons_inv in H as (s1 & H1 & H).
    pose proof (step_locks _ _ _ H1). pose proof (IH _ H). lia.
Qed.

Lemma step_gate_last ev s s' :
  step ev s = Some s' →
  (∀ l, gate s = Some l → S l = length (locks s)) →
  ∀ l, gate s' = Some l → S l = length (locks s').
Proof.
  intros H Hs. unfold gate in *.
  unfold step, ensure_data_enter, ensure_data_locked, ensure_data_refreshed,
    async_request_refresh in H.
  destruct ev as [t|t f|t]; repeat (case_match; simplify_option_eq);
    cbn; rewrite ?length_insert, ?length_app; cbn; intros; simplify_eq;
    try lia; by apply Hs.
Qed.

Lemma run_gate_last sched s s' :
  run sched s = Some s' →
  (∀ l, gate s = Some l → S l = length (locks s)) →
  ∀ l, gate s' = Some l → S l = length (locks s').
Proof.
  revert s. induction sched as [|ev sched IH]; intros s H Hs.
  - by injection H as <-.
  - apply run_cons_inv in H as (s1 & H1 & H).
    eapply IH; [done|]. by eapply step_gate_last.
Qed.

(** X9. In every reachable state [_first_fetch_lock] is set exactly while
    a refresh started by [ensure_data] is in flight; a lock is held exactly
    when it is the one [_first_fetch_lock] refers to, which is the lock
    created last; and [ensure_data] has created one lock for every refresh
    it has called. *)
Theorem gate_held_while_refreshing :
  ∀ d n sched s,
    run sched (init d n) = Some s →
    (is_Some (gate s) ↔ in_flight s = 1) ∧
    (gate s = None ↔ in_flight s = 0) ∧
    (∀ l lk, locks s !! l = Some lk → (_locked lk = true ↔ gate s = Some l)) ∧
    (∀ l, gate s = Some l → S l = length (locks s)) ∧
    length (locks s) = refresh_calls s.
Proof.
  intros d n sched s Hrun.
  pose proof (run_wf _ _ _ (init_wf d n) Hrun) as Hwf.
  assert (in_flight s ≤ 1) as Hle by apply count_refreshing_unique, Hwf.
  assert (∀ l, gate s = Some l → in_flight s = 1) as Hheld.
  { intros l Hg.
    destruct (lookup_lt_is_Some_2 (locks s) l) as [lk Hlk]; [by apply wf_gate|].
    pose proof (gate_locked _ _ _ Hwf Hg Hlk) as Hlocked.
    destruct (wf_locks _ Hwf _ _ Hlk) as (_ & _ & Hst). rewrite Hlocked in Hst.
    destruct Hst as (_ & [t Ht] & _).
    pose proof (count_refreshing_pos _ _ _ Ht). unfold in_flight in *. lia. }
  assert (in_flight s = 1 → is_Some (gate s)) as Hfl.
  { intros H1. destruct (count_refreshing_pos_inv (tasks s)) as (t & l & Ht).
    { unfold in_flight in H1. lia. }
    destruct (wf_fetch _ Hwf _ _ Ht) as [Hg _]. by exists l. }
  split; [|split; [|split; [|split]]].
  - split; [intros [l Hg]; by eapply Hheld|done].
  - split.
    + intros Hg. destruct (decide (in_flight s = 0)) as [|Hne]; [done|].
      destruct Hfl as [l Hl]; [lia|congruence].
    + intros H0. destruct (gate s) as [l|] eqn:Hg; [|done].
      specialize (Hheld l eq_refl). lia.
  - intros l lk Hlk. destruct (wf_locks _ Hwf _ _ Hlk) as (_ & _ & Hst). split.
    + intros Hl. rewrite Hl in Hst. tauto.
    + intros Hg. by eapply gate_locked.
  - eapply run_gate_last; [done|]. done.
  - pose proof (run_locks _ _ _ Hrun) as H. cbn in H. lia.
Qed.

Lemma gate_held_while_refreshing_witness :
  ∃ s, run [Call 0; Call 1] (init None 2) = Some s ∧
       gate s = Some 0 ∧ in_flight s = 1.
Proof.
  eexists. split; [reflexivity|]. split; [reflexivity|].
  destruct (gate_held_while_refreshing None 2 [Call 0; Call 1] _ eq_refl)
    as [[H _] _].
  apply H. by eexists.
Defined.

Lemma wf_gate_in_flight s : wf s → (gate s = None ↔ in_flight s = 0).
Proof.
  intros Hwf. split.
  - intros Hg. apply count_refreshing_none. intros t l Ht.
    destruct (wf_fetch _ Hwf _ _ Ht) as [Hg' _]. congruence.
  - intros H0. destruct (gate s) as [l|] eqn:Hg; [|done]. exfalso.
    destruct (lookup_lt_is_Some_2 (locks s) l) as [lk Hlk]; [by apply wf_gate|].
    pose proof (gate_locked _ _ _ Hwf Hg Hlk) as Hlocked.
    destruct (wf_locks _ Hwf _ _ Hlk) as (_ & _ & Hst). rewrite Hlocked in Hst.
    destruct Hst as (_ & [t Ht] & _).
    pose proof (count_refreshing_pos _ _ _ Ht). unfold in_flight in *. lia.
Qed.

Lemma before_first_end_issuing d s :
  wf s → refresh_done s = 0 → before_first_end d s → issuing d s.
Proof.
  intros Hwf Hdone Hb. destruct (Hb Hdone) as (Hfin & Hwk & Hd).
  repeat (split; [done|]).
  pose proof (wf_count _ Hwf) as Hc.
  pose proof (count_refreshing_unique _ (wf_uniq _ Hwf)) as Hle.
  pose proof (wf_gate_in_flight _ Hwf) as Hg. unfold in_flight in *.
  destruct (decide (count_refreshing (tasks s) = 0)) as [H0|H0].
  - left. split; [lia|]. by apply Hg.
  - right. split; [lia|]. intros Hn. apply Hg in Hn. lia.
Qed.

Lemma before_first_end_step d ev s s' :
  truthy d = false → wf s → before_first_end d s → step ev s = Some s' →
  before_first_end d s'.
Proof.
  intros Hd Hwf Hb H Hdone'.
  pose proof (step_counters _ _ _ H) as Hcnt.
  destruct ev as [t|t f|t].
  - rewrite Hcnt in Hdone'.
    pose proof (before_first_end_issuing _ _ Hwf Hdone' Hb) as Hiss.
    destruct (issuing_call _ _ _ _ Hd Hwf Hiss H) as [(? & ? & ? & ? & ?) _].
    done.
  - lia.
  - destruct Hcnt as [_ Hcnt]. rewrite Hcnt in Hdone'. exfalso.
    destruct (Hb Hdone') as (_ & Hwk & _). cbn in H.
    destruct (tasks s !! t) as [[|l| |]|]; try done.
    unfold ensure_data_locked in H.
    destruct (locks s !! l) as [lk|] eqn:Hlk; [|done]. cbn in H.
    destruct (woken t lk) eqn:Hw; [|done].
    apply woken_elem in Hw. by eapply Hwk.
Qed.

Lemma before_first_end_run d sched s s' :
  truthy d = false → wf s → before_first_end d s → run sched s = Some s' →
  before_first_end d s'.
Proof.
  intros Hd. revert s. induction sched as [|ev sched IH]; intros s Hwf Hb H.
  - by injection H as <-.
  - apply run_cons_inv in H as (s1 & H1 & H).
    eapply IH; [by eapply step_wf|by eapply before_first_end_step|done].
Qed.

Lemma before_first_end_init d n : before_first_end d (init d n).
Proof. intros _. by destruct (issuing_init d n) as (? & ? & ? & ? & ?). Qed.

(** What a turn does to the data and to the error flag. *)
Lemma step_dashboard ev s s' :
  step ev s = Some s' →
  match ev with
  | RefreshDone _ (Ret devices) =>
      data (dashboard s') = Some (index_by_name devices) ∧
      last_update_success (dashboard s') = true
  | RefreshDone _ (Raise _) =>
      data (dashboard s') = data (dashboard s) ∧
      last_update_success (dashboard s') = false
  | _ =>
      data (dashboard s') = data (dashboard s) ∧
      last_update_success (dashboard s') = last_update_success (dashboard s)
  end.
Proof.
  intros H.
  unfold step, ensure_data_enter, ensure_data_locked, ensure_data_refreshed,
    async_request_refresh, _async_update_data in H.
  destruct ev as [t|t [devices|e]|t]; repeat (case_match; simplify_option_eq); done.
Qed.

(** X11. On a coordinator that starts without data, under every
    schedule, a call of [ensure_data] that has returned has seen the end of
    a refresh: no call returns before a first fetch has ended. *)
Theorem no_return_before_fetch_ends :
  ∀ d n sched s t r,
    truthy d = false →
    run sched (init d n) = Some s →
    tasks s !! t = Some (Finished r) →
    1 ≤ refresh_done s ∧ refresh_done s ≤ refresh_calls s.
Proof.
  intros d n sched s t r Hd Hrun Ht.
  pose proof (run_wf _ _ _ (init_wf d n) Hrun) as Hwf.
  pose proof (before_first_end_run _ _ _ _ Hd (init_wf d n)
                (before_first_end_init d n) Hrun) as Hb.
  pose proof (wf_count _ Hwf) as Hc. split; [|lia].
  destruct (decide (refresh_done s = 0)) as [H0|H0]; [|lia].
  destruct (Hb H0) as (Hfin & _). by apply Hfin in Ht.
Qed.

Lemma no_return_before_fetch_ends_witness :
  1 ≤ refresh_done published_empty.
Proof.
  apply (no_return_before_fetch_ends None 2 [Call 0; RefreshDone 0 (Ret [])]
           published_empty 0 (Ret tt) eq_refl eq_refl eq_refl).
Defined.

Lemma get_device_named self entry_data info nm :
  device_info entry_data = Some info → name info = Some nm →
  get_device self entry_data = Ret (m ← data self; m !! nm).
Proof.
  intros Hinfo Hname. unfold get_device. rewrite Hinfo, Hname.
  destruct (data self) as [m|] eqn:Hd; cbn; [|done].
  destruct (Nat.eqb_spec (size m) 0) as [Hs|Hs]; cbn; [|done].
  apply map_size_empty_iff in Hs. subst m. by rewrite lookup_empty.
Qed.

Lemma run_fetched devices sched s s' :
  Forall (fetches_end_with (Ret devices)) sched →
  run sched s = Some s' →
  (refresh_done s ≠ 0 →
   data (dashboard s) = Some (index_by_name devices) ∧
   last_update_success (dashboard s) = true) →
  refresh_done s' ≠ 0 →
  data (dashboard s') = Some (index_by_name devices) ∧
  last_update_success (dashboard s') = true.
Proof.
  intros Hf. revert s. induction Hf as [|ev sched Hev _ IH]; intros s H Hs.
  - by injection H as <-.
  - apply run_cons_inv in H as (s1 & H1 & H). apply (IH _ H).
    pose proof (step_dashboard _ _ _ H1) as Hd.
    pose proof (step_counters _ _ _ H1) as Hc.
    destruct ev as [t|t [devs|e]|t]; cbn in Hev; simplify_eq.
    + intros Hne. destruct Hd as [-> ->]. apply Hs. lia.
    + done.
    + intros Hne. destruct Hd as [-> ->]. apply Hs. lia.
Qed.

(** X12. On a coordinator that starts without data, when every fetch
    returns [devices]: as soon as any call of [ensure_data] has returned,
    the data is the dictionary of [devices] and the last update is marked
    successful; for an entry that carries the name [nm], [get_device]
    returns the last fetched device of that name, [latest_version] its
    current version, and the entity is available exactly when such a device
    was fetched. *)
Theorem returned_call_has_fetched_data :
  ∀ d n devices sched s t r,
    truthy d = false →
    Forall (fetches_end_with (Ret devices)) sched →
    run sched (init d n) = Some s →
    tasks s !! t = Some (Finished r) →
    data (dashboard s) = Some (index_by_name devices) ∧
    last_update_success (dashboard s) = true ∧
    ∀ entry_data info nm,
      device_info entry_data = Some info → name info = Some nm →
      let found := last (filter (fun dev => dev_name dev = nm) devices) in
      let entity := {| _entry_data := entry_data; coordinator := dashboard s |} in
      get_device (dashboard s) entry_data = Ret found ∧
      latest_version entity = Ret (current_version <$> found) ∧
      available true entity = Ret (bool_decide (is_Some found)).
Proof.
  intros d n devices sched s t r Hd Hf Hrun Ht.
  pose proof (run_wf _ _ _ (init_wf d n) Hrun) as Hwf.
  pose proof (before_first_end_run _ _ _ _ Hd (init_wf d n)
                (before_first_end_init d n) Hrun) as Hb.
  assert (refresh_done s ≠ 0) as Hne.
  { intros H0. destruct (Hb H0) as (Hfin & _). by apply Hfin in Ht. }
  destruct (run_fetched _ _ _ _ Hf Hrun) as [Hdata Hlus]; [done|done|].
  split; [done|]. split; [done|].
  intros entry_data info nm Hinfo Hname found entity.
  assert (get_device (dashboard s) entry_data = Ret found) as Hget.
  { rewrite (get_device_named _ _ _ _ Hinfo Hname), Hdata. cbn.
    by rewrite index_by_name_lookup. }
  split; [done|]. unfold latest_version, available, entity. cbn. rewrite Hget.
  by destruct found.
Qed.

Lemma returned_call_has_fetched_data_witness :
  data (dashboard populated_idle) = Some (index_by_name [devA; devB]).
Proof.
  apply (returned_call_has_fetched_data None 3 [devA; devB]
           [Call 0; RefreshDone 0 (Ret [devA; devB])] populated_idle 0 (Ret tt)
           eq_refl).
  - repeat constructor.
  - reflexivity.
  - reflexivity.
Defined.

Lemma run_failed e sched s s' :
  Forall (fetches_end_with (Raise e)) sched →
  run sched s = Some s' →
  data (dashboard s') = data (dashboard s).
Proof.
  intros Hf. revert s. induction Hf as [|ev sched Hev _ IH]; intros s H.
  - by injection H as <-.
  - apply run_cons_inv in H as (s1 & H1 & H). rewrite (IH _ H).
    pose proof (step_dashboard _ _ _ H1) as Hd.
    destruct ev as [t|t [devs|e']|t]; cbn in Hev; simplify_eq; tauto.
Qed.

Lemma run_failed_flag e sched s s' :
  Forall (fetches_end_with (Raise e)) sched →
  run sched s = Some s' →
  (refresh_done s ≠ 0 → last_update_success (dashboard s) = false) →
  refresh_done s' ≠ 0 → last_update_success (dashboard s') = false.
Proof.
  intros Hf. revert s. induction Hf as [|ev sched Hev _ IH]; intros s H Hs.
  - by injection H as <-.
  - apply run_cons_inv in H as (s1 & H1 & H). apply (IH _ H).
    pose proof (step_dashboard _ _ _ H1) as Hd.
    pose proof (step_counters _ _ _ H1) as Hc.
    destruct ev as [t|t [devs|e']|t]; cbn in Hev; simplify_eq.
    + intros Hne. destruct Hd as [_ ->]. apply Hs. lia.
    + tauto.
    + intros Hne. destruct Hd as [_ ->]. apply Hs. lia.
Qed.

(** X13. On a coordinator that starts without data, when every fetch
    fails: the data never changes, every call that returns does so without
    an exception and with the last update marked failed, and the calls can
    all be run to their return while the coordinator still has no data. A
    return of [ensure_data] does not imply that data is present. *)
Theorem calls_return_without_data_when_fetch_fails :
  ∀ d n e,
    truthy d = false →
    (∀ sched s,
       Forall (fetches_end_with (Raise e)) sched →
       run sched (init d n) = Some s →
       data (dashboard s) = d ∧
       ∀ t r, tasks s !! t = Some (Finished r) →
              r = Ret tt ∧ last_update_success (dashboard s) = false) ∧
    ∃ sched s,
      Forall (fetches_end_with (Raise e)) sched ∧
      run sched (init d n) = Some s ∧
      (∀ t, t < n → tasks s !! t = Some (Finished (Ret tt))) ∧
      truthy (data (dashboard s)) = false.
Proof.
  intros d n e Hd.
  assert (∀ sched s,
            Forall (fetches_end_with (Raise e)) sched →
            run sched (init d n) = Some s → data (dashboard s) = d) as Hdata.
  { intros sched s Hf Hrun. by rewrite (run_failed _ _ _ _ Hf Hrun). }
  split.
  - intros sched s Hf Hrun. split; [by eapply Hdata|].
    intros t r Ht.
    pose proof (run_wf _ _ _ (init_wf d n) Hrun) as Hwf.
    split; [by eapply wf_ret|].
    pose proof (before_first_end_run _ _ _ _ Hd (init_wf d n)
                  (before_first_end_init d n) Hrun) as Hb.
    eapply run_failed_flag; [done|done|done|].
    intros H0. destruct (Hb H0) as (Hfin & _). by apply Hfin in Ht.
  - destruct (completes (Raise e) (init d n) (init_wf d n))
      as (sched & s & Hrun & Hall & Hf).
    exists sched, s. split; [done|]. split; [done|].
    pose proof (run_wf _ _ _ (init_wf d n) Hrun) as Hwf.
    split; [|by rewrite (Hdata _ _ Hf Hrun)].
    intros t Ht. destruct (run_length _ _ _ Hrun) as [Hl _].
    cbn in Hl. rewrite length_replicate in Hl.
    destruct (lookup_lt_is_Some_2 (tasks s) t) as [x Hx]; [lia|].
    rewrite Forall_forall in Hall.
    pose proof (Hall x (list_elem_of_lookup_2 _ _ _ Hx)) as Hfin.
    destruct x as [| | |r]; try done.
    by rewrite (wf_ret _ Hwf _ _ Hx) in Hx.
Qed.

Lemma calls_return_without_data_when_fetch_fails_witness :
  ∃ s, run [Call 0; Call 1; RefreshDone 0 (Raise FetchError); Wake 1] (init None 2)
       = Some s ∧
       data (dashboard s) = None ∧
       tasks s !! 1 = Some (Finished (Ret tt)).
Proof.
  eexists. split; [reflexivity|].
  destruct (calls_return_without_data_when_fetch_fails None 2 FetchError eq_refl)
    as [H _].
  split; [|reflexivity].
  apply (H [Call 0; Call 1; RefreshDone 0 (Raise FetchError); Wake 1] _).
  - repeat constructor.
  - reflexivity.
Defined.









(** X15. In every reachable state, a call that waits on a lock cannot
    resume while [_first_fetch_lock] refers to that lock, and some call
    waiting on that lock can resume as soon as it does not: a refresh
    started later, with its own new lock, does not hold back the calls
    that waited for an earlier one. *)
Theorem waiters_blocked_only_by_their_fetch :
  ∀ d n sched s t l,
    run sched (init d n) = Some s →
    tasks s !! t = Some (AwaitLock l) →
    (gate s = Some l → ∀ u, tasks s !! u = Some (AwaitLock l) →
                            step (Wake u) s = None) ∧
    (gate s ≠ Some l →
     ∃ u s', tasks s !! u = Some (AwaitLock l) ∧ step (Wake u) s = Some s').
Proof.
  intros d n sched s t l Hrun Ht.
  pose proof (run_wf _ _ _ (init_wf d n) Hrun) as Hwf.
  destruct (lookup_lt_is_Some_2 (locks s) l) as [lk Hlk]; [by eapply wf_wait|].
  destruct (wf_locks _ Hwf _ _ Hlk) as (Hnd & Hmem & Hst). split.
  - intros Hg u Hu. rewrite (gate_locked _ _ _ Hwf Hg Hlk) in Hst.
    destruct Hst as (_ & _ & Hfa). cbn. rewrite Hu.
    unfold ensure_data_locked. rewrite Hlk. cbn.
    destruct (woken u lk) eqn:Hw; [|done]. apply woken_elem in Hw.
    rewrite Forall_forall in Hfa. by specialize (Hfa _ Hw).
  - intros Hg. destruct (_locked lk); [by destruct Hst as [? _]|].
    destruct Hst as [_ Hhead].
    assert (t ∈ (_waiters lk).*1) as Hin by by apply Hmem.
    destruct (_waiters lk) as [|[u b] ws] eqn:Hws; [by apply elem_of_nil in Hin|].
    cbn in Hhead. subst b.
    assert (tasks s !! u = Some (AwaitLock l)) as Hu.
    { apply Hmem. cbn. apply list_elem_of_here. }
    destruct (enabled_wake s u l lk Hwf Hu Hlk) as [s' H].
    { unfold woken. apply bool_decide_eq_true. rewrite Hws. apply list_elem_of_here. }
    by exists u, s'.
Qed.

Lemma waiters_blocked_only_by_their_fetch_witness :
  ∃ s, run [Call 0; Call 1] (init None 2) = Some s ∧ step (Wake 1) s = None.
Proof.
  eexists. split; [reflexivity|].
  destruct (waiters_blocked_only_by_their_fetch None 2 [Call 0; Call 1] _ 1 0
              eq_refl eq_refl) as [H _].
  apply (H eq_refl 1 eq_refl).
Defined.
